(** * queuectl: the job repository, the worker registry and the retry policy

    A shallow embedding of [queuectl/models.py], [queuectl/utils/time.py],
    [queuectl/config.py], [queuectl/locking.py], [queuectl/repo.py] and the
    outcome recording of [queuectl/worker.py].

    The three tables are finite maps keyed by their primary key.  Every
    repository method is a computation in a state-and-exception monad over
    a [World]: the committed tables together with the environment the
    process reads (wall clock, random generator, uuid generator).  ORM
    objects are local values until [session.commit()], so a computation
    that raises carries the tables as they were. *)

From Stdlib Require Import ZArith QArith Qround Qminmax Qpower Lqa Ascii String.
From stdpp Require Import base gmap strings list fin_maps sorting.
Local Open Scope Z_scope.

(** ** Python values *)

(** A timezone-aware UTC [datetime]: microseconds since the epoch. *)
Definition datetime := Z.

(** A Python [str] holding captured output: its Unicode code points.
    Identifiers, commands and config values are kept as [string]. *)
Definition text := list N.

(** The exception classes the modelled code can raise. *)
Inductive exn :=
| ValueError
| ArithmeticError   (* OverflowError, ZeroDivisionError *)
| IntegrityError.   (* sqlalchemy.exc.IntegrityError: primary key *)

(** [executor.ExecutionResult] *)
Record ExecutionResult := mkExecutionResult {
  exit_code : Z;
  res_stdout : text;
  res_stderr : text;
  res_duration_ms : Z;
  timed_out : bool
}.

(** What the development takes from the Python runtime without looking
    inside: binary64 arithmetic, the parsers behind [int()], [float()]
    and [datetime.fromisoformat], the subprocess run by [execute_job]
    and the rendering [str(e)] of an exception.  A [None] stands for the
    exception the operation raises. *)
Class Runtime := {
  float : Type;
  float_of_int : Z -> float;
  float_half : float;
  float_pow : float -> Z -> option float;
  float_ltb : float -> float -> bool;
  float_add : float -> float -> float;
  float_sub : float -> float -> float;
  float_mul : float -> float -> float;
  timedelta_seconds : float -> option Z;
  py_int : string -> option Z;
  py_float : string -> option float;
  fromisoformat : string -> option datetime;
  execute_job : string -> option Z -> ExecutionResult;
  str_exn : exn -> text
}.

(** ** models.py *)

Module Job.
Record t `{Runtime} := mk {
  id : string;
  command : string;
  state : string;
  attempts : Z;
  max_retries : Z;
  backoff_base : float;
  priority : Z;
  run_at : datetime;
  timeout_s : option Z;
  created_at : datetime;
  updated_at : datetime;
  locked_by : option string;
  locked_at : option datetime;
  last_exit_code : option Z;
  stdout : option text;
  stderr : option text;
  duration_ms : option Z
}.

(** Attribute assignment [job.f = v] on a loaded object. *)
Section Setters.
Context `{Runtime}.

Definition set_state (v : string) (j : t) : t :=
  mk _ (id j) (command j) v (attempts j) (max_retries j) (backoff_base j)
    (priority j) (run_at j) (timeout_s j) (created_at j) (updated_at j)
    (locked_by j) (locked_at j) (last_exit_code j) (stdout j) (stderr j)
    (duration_ms j).

Definition set_attempts (v : Z) (j : t) : t :=
  mk _ (id j) (command j) (state j) v (max_retries j) (backoff_base j)
    (priority j) (run_at j) (timeout_s j) (created_at j) (updated_at j)
    (locked_by j) (locked_at j) (last_exit_code j) (stdout j) (stderr j)
    (duration_ms j).

Definition set_run_at (v : datetime) (j : t) : t :=
  mk _ (id j) (command j) (state j) (attempts j) (max_retries j)
    (backoff_base j) (priority j) v (timeout_s j) (created_at j)
    (updated_at j) (locked_by j) (locked_at j) (last_exit_code j)
    (stdout j) (stderr j) (duration_ms j).

Definition set_updated_at (v : datetime) (j : t) : t :=
  mk _ (id j) (command j) (state j) (attempts j) (max_retries j)
    (backoff_base j) (priority j) (run_at j) (timeout_s j) (created_at j)
    v (locked_by j) (locked_at j) (last_exit_code j) (stdout j)
    (stderr j) (duration_ms j).

Definition set_locked_by (v : option string) (j : t) : t :=
  mk _ (id j) (command j) (state j) (attempts j) (max_retries j)
    (backoff_base j) (priority j) (run_at j) (timeout_s j) (created_at j)
    (updated_at j) v (locked_at j) (last_exit_code j) (stdout j)
    (stderr j) (duration_ms j).

Definition set_locked_at (v : option datetime) (j : t) : t :=
  mk _ (id j) (command j) (state j) (attempts j) (max_retries j)
    (backoff_base j) (priority j) (run_at j) (timeout_s j) (created_at j)
    (updated_at j) (locked_by j) v (last_exit_code j) (stdout j)
    (stderr j) (duration_ms j).

Definition set_last_exit_code (v : option Z) (j : t) : t :=
  mk _ (id j) (command j) (state j) (attempts j) (max_retries j)
    (backoff_base j) (priority j) (run_at j) (timeout_s j) (created_at j)
    (updated_at j) (locked_by j) (locked_at j) v (stdout j) (stderr j)
    (duration_ms j).

Definition set_stdout (v : option text) (j : t) : t :=
  mk _ (id j) (command j) (state j) (attempts j) (max_retries j)
    (backoff_base j) (priority j) (run_at j) (timeout_s j) (created_at j)
    (updated_at j) (locked_by j) (locked_at j) (last_exit_code j) v
    (stderr j) (duration_ms j).

Definition set_stderr (v : option text) (j : t) : t :=
  mk _ (id j) (command j) (state j) (attempts j) (max_retries j)
    (backoff_base j) (priority j) (run_at j) (timeout_s j) (created_at j)
    (updated_at j) (locked_by j) (locked_at j) (last_exit_code j)
    (stdout j) v (duration_ms j).

Definition set_duration_ms (v : option Z) (j : t) : t :=
  mk _ (id j) (command j) (state j) (attempts j) (max_retries j)
    (backoff_base j) (priority j) (run_at j) (timeout_s j) (created_at j)
    (updated_at j) (locked_by j) (locked_at j) (last_exit_code j)
    (stdout j) (stderr j) v.

End Setters.
End Job.

Module Worker.
Record t := mk {
  id : string;
  started_at : datetime;
  last_heartbeat : datetime;
  status : string
}.
End Worker.

(** ** The world: committed tables and environment *)

Record World `{Runtime} := mkWorld {
  jobs : gmap string Job.t;
  workers : gmap string Worker.t;
  config : gmap string string;
  clock : nat -> datetime;      (* successive readings of the wall clock *)
  ticks : nat;
  rng : nat -> float;           (* successive values of [random.random()] *)
  draws : nat;
  uuids : nat -> string;        (* successive values of [str(uuid.uuid4())] *)
  uuid_draws : nat
}.

Inductive result `{Runtime} (A : Type) :=
| Ok (a : A) (w : World)
| Raise (e : exn) (w : World).
Arguments Ok {_ _} a w.
Arguments Raise {_ _} e w.

Section Queuectl.
Context `{RT : Runtime}.

Definition M (A : Type) : Type := World -> result A.

Definition ret {A} (a : A) : M A := fun w => Ok a w.

Definition bind {A B} (m : M A) (k : A -> M B) : M B :=
  fun w => match m w with
           | Ok a w' => k a w'
           | Raise e w' => Raise e w'
           end.

Definition raise {A} (e : exn) : M A := fun w => Raise e w.

Definition try_except {A} (m : M A) (handler : exn -> M A) : M A :=
  fun w => match m w with
           | Ok a w' => Ok a w'
           | Raise e w' => handler e w'
           end.

Definition lift_option {A} (e : exn) (o : option A) : M A :=
  match o with
  | Some a => ret a
  | None => raise e
  end.

Notation "'let*' x := m 'in' k" := (bind m (fun x => k))
  (at level 10, x name, m at level 100, k at level 200).
Notation "'run' m 'in' k" := (bind m (fun _ => k))
  (at level 10, m at level 100, k at level 200).

(** The world a call leaves behind, whether it returned or raised. *)
Definition world_of {A} (r : result A) : World :=
  match r with
  | Ok _ w => w
  | Raise _ w => w
  end.

Definition set_jobs (js : gmap string Job.t) (w : World) : World :=
  mkWorld _ js (workers w) (config w) (clock w) (ticks w) (rng w) (draws w)
          (uuids w) (uuid_draws w).

Definition set_workers (ws : gmap string Worker.t) (w : World) : World :=
  mkWorld _ (jobs w) ws (config w) (clock w) (ticks w) (rng w) (draws w)
          (uuids w) (uuid_draws w).

Definition tick (w : World) : World :=
  mkWorld _ (jobs w) (workers w) (config w) (clock w) (S (ticks w)) (rng w)
          (draws w) (uuids w) (uuid_draws w).

Definition draw (w : World) : World :=
  mkWorld _ (jobs w) (workers w) (config w) (clock w) (ticks w) (rng w)
          (S (draws w)) (uuids w) (uuid_draws w).

Definition draw_uuid (w : World) : World :=
  mkWorld _ (jobs w) (workers w) (config w) (clock w) (ticks w) (rng w)
          (draws w) (uuids w) (S (uuid_draws w)).

(** *** Session primitives *)

(** [session.get(Job, job_id)] *)
Definition session_get_job (job_id : string) : M (option Job.t) :=
  fun w => Ok (jobs w !! job_id) w.

(** [session.add(job); session.commit()] for a new object: an INSERT,
    refused by the primary key when the id is taken. *)
Definition session_add_job (job : Job.t) : M unit :=
  fun w => match jobs w !! Job.id job with
           | Some _ => Raise IntegrityError w
           | None => Ok tt (set_jobs (<[Job.id job := job]> (jobs w)) w)
           end.

(** [session.commit()] after attribute assignments on a loaded job: an
    UPDATE of the row with that primary key. *)
Definition session_commit_job (job_id : string) (job : Job.t) : M unit :=
  fun w => Ok tt (set_jobs (<[job_id := job]> (jobs w)) w).

Definition session_get_worker (worker_id : string) : M (option Worker.t) :=
  fun w => Ok (workers w !! worker_id) w.

Definition session_add_worker (worker : Worker.t) : M unit :=
  fun w => match workers w !! Worker.id worker with
           | Some _ => Raise IntegrityError w
           | None =>
               Ok tt (set_workers (<[Worker.id worker := worker]> (workers w)) w)
           end.

Definition session_commit_worker (worker_id : string) (worker : Worker.t)
  : M unit :=
  fun w => Ok tt (set_workers (<[worker_id := worker]> (workers w)) w).

Definition session_delete_worker (worker_id : string) : M unit :=
  fun w => Ok tt (set_workers (delete worker_id (workers w)) w).

(** ** utils/time.py *)

Definition utcnow : M datetime :=
  fun w => Ok (clock w (ticks w)) (tick w).

Inductive run_at_arg :=
| RunAtDatetime (dt : datetime)
| RunAtStr (s : string).

Definition endswith_Z (s : string) : bool :=
  match String.length s with
  | O => false
  | S n => match String.get n s with
           | Some c => bool_decide (c = "Z"%char)
           | None => false
           end
  end.

(** [ensure_utc] on a value that is not [None].  A datetime object is an
    instant already; a string is parsed after its trailing [Z] is
    rewritten, and [fromisoformat] stands for the parse followed by the
    conversion to UTC. *)
Definition ensure_utc (dt : run_at_arg) : M datetime :=
  match dt with
  | RunAtDatetime d => ret d
  | RunAtStr s =>
      let s' := if endswith_Z s
                then (String.substring 0 (String.length s - 1)%nat s ++ "+00:00")%string
                else s in
      lift_option ValueError (fromisoformat s')
  end.

(** Python truthiness of the [run_at] argument. *)
Definition run_at_truthy (dt : option run_at_arg) : bool :=
  match dt with
  | None => false
  | Some (RunAtDatetime _) => true
  | Some (RunAtStr s) => negb (String.eqb s "")
  end.

(** ** config.py *)

Definition config_get (key : string) : M (option string) :=
  fun w => Ok (config w !! key) w.

(** [int(value) if value else default]: a missing row and the empty
    string both give the default. *)
Definition get_int (key : string) (default : Z) : M Z :=
  let* value := config_get key in
  match value with
  | Some s => if negb (String.eqb s "")
              then lift_option ValueError (py_int s)
              else ret default
  | None => ret default
  end.

Definition get_float (key : string) (default : float) : M float :=
  let* value := config_get key in
  match value with
  | Some s => if negb (String.eqb s "")
              then lift_option ValueError (py_float s)
              else ret default
  | None => ret default
  end.

Record Snapshot := mkSnapshot {
  snap_max_retries : Z;
  snap_backoff_base : float;
  snap_job_timeout_s : Z
}.

(** [2.0], the default of [get_float("backoff_base", 2.0)]. *)
Definition float_two : float := float_of_int 2.

Definition snapshot : M Snapshot :=
  let* mr := get_int "max_retries" 3 in
  let* bb := get_float "backoff_base" float_two in
  let* jt := get_int "job_timeout_s" 0 in
  ret (mkSnapshot mr bb jt).

(** ** locking.py *)

(** [timedelta(seconds=n)] for an integer [n], in microseconds. *)
Definition timedelta_int_seconds (n : Z) : Z := n * 1000000.


(** [random.random()] *)
Definition random_random : M float :=
  fun w => Ok (rng w (draws w)) (draw w).

(** [random.uniform(a, b)] is [a + (b - a) * self.random()]. *)
Definition random_uniform (a b : float) : M float :=
  let* u := random_random in
  ret (float_add a (float_mul (float_sub b a) u)).

(** [min(exponential, max_backoff_s)]: the second argument is returned
    only when it is strictly smaller. *)
Definition py_min (exponential : float) (max_backoff_s : Z) : float :=
  if float_ltb (float_of_int max_backoff_s) exponential
  then float_of_int max_backoff_s
  else exponential.

Definition calculate_backoff_delay (attempts : Z) (base : float)
    (max_backoff_s : Z) : M float :=
  let* exponential := lift_option ArithmeticError (float_pow base attempts) in
  let capped := py_min exponential max_backoff_s in
  let* jitter := random_uniform (float_of_int 0) (float_mul float_half base) in
  ret (float_add capped jitter).

Definition get_next_run_at (attempts : Z) (base : float) (max_backoff_s : Z)
  : M datetime :=
  let* delay := calculate_backoff_delay attempts base max_backoff_s in
  let* now := utcnow in
  let* td := lift_option ArithmeticError (timedelta_seconds delay) in
  ret (now + td).

(** ** repo.py: JobRepository *)

Definition uuid4 : M string :=
  fun w => Ok (uuids w (uuid_draws w)) (draw_uuid w).

Definition create_job (command : string) (job_id : option string)
    (priority : Z) (run_at : option run_at_arg) (timeout_s : option Z)
    (max_retries : option Z) (backoff_base : option float) : M Job.t :=
  let* job_id := match job_id with
                 | None => uuid4
                 | Some i => ret i
                 end in
  let* existing := session_get_job job_id in
  match existing with
  | Some _ => raise ValueError
  | None =>
      let* snap := snapshot in
      let* run_at := match run_at with
                     | Some dt => if run_at_truthy run_at
                                  then ensure_utc dt
                                  else utcnow
                     | None => utcnow
                     end in
      let* created := utcnow in
      let* updated := utcnow in
      let job :=
        {| Job.id := job_id;
           Job.command := command;
           Job.state := "pending";
           Job.attempts := 0;
           Job.max_retries := match max_retries with
                              | Some m => m
                              | None => snap_max_retries snap
                              end;
           Job.backoff_base := match backoff_base with
                               | Some b => b
                               | None => snap_backoff_base snap
                               end;
           Job.priority := priority;
           Job.run_at := run_at;
           Job.timeout_s := timeout_s;
           Job.created_at := created;
           Job.updated_at := updated;
           Job.locked_by := None;
           Job.locked_at := None;
           Job.last_exit_code := None;
           Job.stdout := None;
           Job.stderr := None;
           Job.duration_ms := None |} in
      run session_add_job job in
      ret job
  end.

(** The WHERE clause of [claim_job].  A comparison with NULL selects
    nothing, as in SQL. *)
Definition eligible (now : datetime) (lock_timeout_s : Z) (job : Job.t)
  : bool :=
  (String.eqb (Job.state job) "pending" || String.eqb (Job.state job) "failed")
  && (Job.run_at job <=? now)
  && (match Job.locked_by job with None => true | Some _ => false end
      || match Job.locked_at job with None => true | Some _ => false end
      || match Job.locked_at job with
         | Some la => la <? now - timedelta_int_seconds lock_timeout_s
         | None => false
         end).

(** [a] sorts strictly before [b] under
    ORDER BY run_at ASC, priority DESC, created_at ASC. *)
Definition order_before (a b : Job.t) : bool :=
  (Job.run_at a <? Job.run_at b)
  || ((Job.run_at a =? Job.run_at b)
      && ((Job.priority b <? Job.priority a)
          || ((Job.priority a =? Job.priority b)
              && (Job.created_at a <? Job.created_at b)))).

(** ORDER BY ... LIMIT 1 over the scanned rows: a later row replaces the
    candidate only when it sorts strictly before it. *)
Definition select_first (rows : list (string * Job.t))
  : option (string * Job.t) :=
  foldr (fun r best =>
           match best with
           | None => Some r
           | Some b => if order_before (snd b) (snd r) then Some b else Some r
           end) None rows.

(** The rows the SELECT scans. FOR UPDATE SKIP LOCKED only matters
    between concurrent transactions; one session runs at a time here. *)
Definition select_eligible (now : datetime) (lock_timeout_s : Z)
  : M (list (string * Job.t)) :=
  fun w => Ok (List.filter (fun r => eligible now lock_timeout_s (snd r))
                           (map_to_list (jobs w))) w.

Definition claim_job (worker_id : string) : M (option Job.t) :=
  let* lock_timeout_s := get_int "lock_timeout_s" 300 in
  let* now := utcnow in
  let* rows := select_eligible now lock_timeout_s in
  match select_first rows with
  | Some (key, job) =>
      let job := Job.set_locked_by (Some worker_id) job in
      let job := Job.set_locked_at (Some now) job in
      let job := Job.set_state "processing" job in
      let job := Job.set_updated_at now job in
      run session_commit_job key job in
      ret (Some job)
  | None => ret None
  end.

(** [s[:8192] if s else None] *)
Definition truncate_output (s : text) : option text :=
  match s with
  | [] => None
  | _ => Some (take (Z.to_nat 8192) s)
  end.

Definition mark_success (job_id : string) (exit_code : Z)
    (stdout stderr : text) (duration_ms : Z) : M unit :=
  let* found := session_get_job job_id in
  match found with
  | None => ret tt
  | Some job =>
      let job := Job.set_state "completed" job in
      let job := Job.set_last_exit_code (Some exit_code) job in
      let job := Job.set_stdout (truncate_output stdout) job in
      let job := Job.set_stderr (truncate_output stderr) job in
      let job := Job.set_duration_ms (Some duration_ms) job in
      let job := Job.set_locked_by None job in
      let job := Job.set_locked_at None job in
      let* now := utcnow in
      let job := Job.set_updated_at now job in
      session_commit_job job_id job
  end.

Definition mark_failure (job_id : string) (exit_code : Z)
    (stdout stderr : text) (duration_ms : Z) : M unit :=
  let* found := session_get_job job_id in
  match found with
  | None => ret tt
  | Some job =>
      let job := Job.set_attempts (Job.attempts job + 1) job in
      let job := Job.set_last_exit_code (Some exit_code) job in
      let job := Job.set_stdout (truncate_output stdout) job in
      let job := Job.set_stderr (truncate_output stderr) job in
      let job := Job.set_duration_ms (Some duration_ms) job in
      let* now := utcnow in
      let job := Job.set_updated_at now job in
      if Job.max_retries job <=? Job.attempts job
      then
        let job := Job.set_state "dead" job in
        let job := Job.set_locked_by None job in
        let job := Job.set_locked_at None job in
        session_commit_job job_id job
      else
        let* max_backoff_s := get_int "max_backoff_s" 3600 in
        let job := Job.set_state "failed" job in
        let* next := get_next_run_at (Job.attempts job) (Job.backoff_base job)
                                     max_backoff_s in
        let job := Job.set_run_at next job in
        let job := Job.set_locked_by None job in
        let job := Job.set_locked_at None job in
        session_commit_job job_id job
  end.

Definition get_job (job_id : string) : M (option Job.t) :=
  session_get_job job_id.

Definition retry_dlq_job (job_id : string) : M bool :=
  let* found := session_get_job job_id in
  match found with
  | None => ret false
  | Some job =>
      if negb (String.eqb (Job.state job) "dead")
      then ret false
      else
        let job := Job.set_state "pending" job in
        let job := Job.set_attempts 0 job in
        let* now := utcnow in
        let job := Job.set_run_at now job in
        let job := Job.set_locked_by None job in
        let job := Job.set_locked_at None job in
        let* now' := utcnow in
        let job := Job.set_updated_at now' job in
        run session_commit_job job_id job in
        ret true
  end.

(** ** repo.py: WorkerRepository *)

Definition register_worker (worker_id : string) : M Worker.t :=
  let* now := utcnow in
  let worker := {| Worker.id := worker_id;
                   Worker.started_at := now;
                   Worker.last_heartbeat := now;
                   Worker.status := "active" |} in
  run session_add_worker worker in
  ret worker.

Definition heartbeat (worker_id : string) : M unit :=
  let* found := session_get_worker worker_id in
  match found with
  | Some worker =>
      let* now := utcnow in
      session_commit_worker worker_id
        {| Worker.id := Worker.id worker;
           Worker.started_at := Worker.started_at worker;
           Worker.last_heartbeat := now;
           Worker.status := Worker.status worker |}
  | None => ret tt
  end.

Definition deregister_worker (worker_id : string) : M unit :=
  let* found := session_get_worker worker_id in
  match found with
  | Some _ => session_delete_worker worker_id
  | None => ret tt
  end.

(** ** worker.py: recording the outcome of a claimed job *)

(** A [str] literal as code points. *)
Definition text_of_string (s : string) : text :=
  map N_of_ascii (list_ascii_of_string s).

Definition effective_timeout (job : Job.t) : M (option Z) :=
  match Job.timeout_s job with
  | Some t =>
      if t =? 0
      then let* global_timeout := get_int "job_timeout_s" 0 in
           ret (if 0 <? global_timeout then Some global_timeout else None)
      else ret (Some t)
  | None =>
      let* global_timeout := get_int "job_timeout_s" 0 in
      ret (if 0 <? global_timeout then Some global_timeout else None)
  end.

(** The update at the end of the [try] block of [_process_job]. *)
Definition record_result (job : Job.t) (result : ExecutionResult) : M unit :=
  if exit_code result =? 0
  then mark_success (Job.id job) (exit_code result) (res_stdout result)
                    (res_stderr result) (res_duration_ms result)
  else mark_failure (Job.id job) (exit_code result) (res_stdout result)
                    (res_stderr result) (res_duration_ms result).

Definition _process_job (job : Job.t) : M unit :=
  try_except
    (let* timeout_s := effective_timeout job in
     let result := execute_job (Job.command job) timeout_s in
     record_result job result)
    (fun e =>
       mark_failure (Job.id job) (-1) []
                    (text_of_string "Worker error: " ++ str_exn e) 0).

(** ** config.py: writes *)

Definition set_config (c : gmap string string) (w : World) : World :=
  mkWorld _ (jobs w) (workers w) c (clock w) (ticks w) (rng w) (draws w)
          (uuids w) (uuid_draws w).

(** [session.add(Config(key=key, value=value))] followed by the commit. *)
Definition session_add_config (key value : string) : M unit :=
  fun w => match config w !! key with
           | Some _ => Raise IntegrityError w
           | None => Ok tt (set_config (<[key := value]> (config w)) w)
           end.

(** [config.value = value] on a loaded row followed by the commit. *)
Definition session_commit_config (key value : string) : M unit :=
  fun w => Ok tt (set_config (<[key := value]> (config w)) w).

(** [ConfigManager.set(key, value)]; [value] is the string [str(value)]
    the method stores. *)
Definition config_set (key value : string) : M unit :=
  let* existing := config_get key in
  match existing with
  | Some _ => session_commit_config key value
  | None => session_add_config key value
  end.

Definition get_all : M (gmap string string) :=
  fun w => Ok (config w) w.

(** ** db.py: default configuration *)

Definition default_config : list (string * string) :=
  [("max_retries", "3"); ("backoff_base", "2.0"); ("poll_interval_ms", "500");
   ("lock_timeout_s", "300"); ("job_timeout_s", "0");
   ("max_backoff_s", "3600")].

Fixpoint seed_defaults (defaults : list (string * string)) : M unit :=
  match defaults with
  | [] => ret tt
  | (key, value) :: rest =>
      let* existing := config_get key in
      run (match existing with
           | None => session_add_config key value
           | Some _ => ret tt
           end) in
      seed_defaults rest
  end.

Definition _seed_default_config : M unit := seed_defaults default_config.

(** ** repo.py: queries *)

Definition select_jobs (where_ : Job.t -> bool) : M (list Job.t) :=
  fun w => Ok (List.filter where_ (map snd (map_to_list (jobs w)))) w.

(** ORDER BY created_at DESC: [a] may come before [b]. *)
Definition created_desc (a b : Job.t) : Prop :=
  Job.created_at b <= Job.created_at a.

Definition created_desc_dec (a b : Job.t) : Decision (created_desc a b) :=
  Z_le_dec (Job.created_at b) (Job.created_at a).

(** LIMIT n as SQLite reads it: a negative bound is no bound. *)
Definition sql_limit {A} (n : Z) (rows : list A) : list A :=
  if n <? 0 then rows else take (Z.to_nat n) rows.

Definition list_jobs (state : option string) (limit : option Z)
    (pending_ready_only : bool) : M (list Job.t) :=
  let by_state := fun job : Job.t =>
    match state with
    | Some s => if negb (String.eqb s "")
                then String.eqb (Job.state job) s
                else true
    | None => true
    end in
  let* ready :=
    (if pending_ready_only
     then let* now := utcnow in
          ret (fun job : Job.t =>
                 String.eqb (Job.state job) "pending"
                 && (Job.run_at job <=? now))
     else ret (fun _ : Job.t => true)) in
  let* rows := select_jobs (fun job => by_state job && ready job) in
  let ordered := @merge_sort _ created_desc created_desc_dec rows in
  ret (match limit with
       | Some n => if negb (n =? 0) then sql_limit n ordered else ordered
       | None => ordered
       end).

Definition list_dlq_jobs (limit : option Z) : M (list Job.t) :=
  list_jobs (Some "dead") limit false.

(** One row of GROUP BY state with count(id). *)
Definition count_state (job : Job.t) (counts : gmap string Z)
  : gmap string Z :=
  <[Job.state job := default 0 (counts !! Job.state job) + 1]> counts.

Definition get_state_counts : M (gmap string Z) :=
  fun w => Ok (foldr (fun r counts => count_state (snd r) counts) ∅
                     (map_to_list (jobs w))) w.




(** ** executor.py: the decisions taken before the subprocess starts *)

(** [sub in s] *)
Fixpoint str_contains (sub s : string) : bool :=
  String.prefix sub s
  || match s with
     | EmptyString => false
     | String _ rest => str_contains sub rest
     end.

Definition shell_operators : list string :=
  ["|"; ">"; "<"; "&"; "&&"; "||"; ";"]%string.

Definition use_shell (command : string) : bool :=
  existsb (fun op => str_contains op command) shell_operators.

(** [timeout_s if timeout_s and timeout_s > 0 else None] *)
Definition actual_timeout (timeout_s : option Z) : option Z :=
  match timeout_s with
  | Some t => if negb (t =? 0) && (0 <? t) then Some t else None
  | None => None
  end.

End Queuectl.

(** ** A runtime to run the model on

    Exact rational arithmetic stands in for binary64, the parsers read
    plain decimal literals, and the subprocess fails exactly for the
    command [false].  It serves to evaluate the model on concrete
    stores; no statement about binary64 is derived from it. *)

Fixpoint digits_value (acc : Z) (s : string) : option Z :=
  match s with
  | EmptyString => Some acc
  | String c rest =>
      let n := Z.of_N (N_of_ascii c) in
      if (48 <=? n) && (n <=? 57)
      then digits_value (acc * 10 + (n - 48)) rest
      else None
  end.

Definition decimal_int (s : string) : option Z :=
  match s with
  | EmptyString => None
  | String c rest =>
      if Ascii.eqb c "-"
      then match rest with
           | EmptyString => None
           | _ => option_map Z.opp (digits_value 0 rest)
           end
      else digits_value 0 s
  end.

Fixpoint split_at_dot (s : string) : string * option string :=
  match s with
  | EmptyString => (EmptyString, None)
  | String c rest =>
      if Ascii.eqb c "."
      then (EmptyString, Some rest)
      else let '(a, b) := split_at_dot rest in (String c a, b)
  end.

Definition decimal_float (s : string) : option Q :=
  match split_at_dot s with
  | (a, None) => option_map inject_Z (decimal_int a)
  | (a, Some b) =>
      match decimal_int a, digits_value 0 b with
      | Some i, Some f =>
          let scale := 10 ^ Z.of_nat (String.length b) in
          let mag := Z.abs i * scale + f in
          Some (Qred ((if Ascii.eqb (default "0"%char (String.get 0 s)) "-"
                       then - mag else mag) # Z.to_pos scale))
      | _, _ => None
      end
  end.

(** Round to the nearest integer, ties to even, as [timedelta] does. *)
Definition round_half_even (q : Q) : Z :=
  let f := Qfloor q in
  match Qcompare (q - inject_Z f) (1 # 2) with
  | Lt => f
  | Gt => f + 1
  | Eq => if Z.even f then f else f + 1
  end.

Definition exact_pow (b : Q) (n : Z) : option Q :=
  if (n <? 0) && Qeq_bool b 0 then None else Some (Qred (Qpower b n)).

Definition exact_execute (command : string) (timeout_s : option Z)
  : ExecutionResult :=
  if String.eqb command "false"
  then mkExecutionResult 1 [] [] 0 false
  else mkExecutionResult 0 [] [] 0 false.

#[export] Instance exact_runtime : Runtime := {|
  float := Q;
  float_of_int := inject_Z;
  float_half := 1 # 2;
  float_pow := exact_pow;
  float_ltb := fun a b => negb (Qle_bool b a);
  float_add := fun a b => Qred (a + b);
  float_sub := fun a b => Qred (a - b);
  float_mul := fun a b => Qred (a * b);
  timedelta_seconds := fun q => Some (round_half_even (q * 1000000));
  py_int := decimal_int;
  py_float := decimal_float;
  fromisoformat := fun _ => None;
  execute_job := exact_execute;
  str_exn := fun _ => []
|}.

(** * Specification vocabulary *)

Section Specification.
Context `{RT : Runtime}.

(** The eligibility predicate in the words of the specification. *)
Definition eligible_spec (now : datetime) (lock_timeout_s : Z) (job : Job.t)
  : Prop :=
  (Job.state job = "pending" \/ Job.state job = "failed") /\
  Job.run_at job <= now /\
  (Job.locked_by job = None \/ Job.locked_at job = None \/
   exists la, Job.locked_at job = Some la /\
              la < now - lock_timeout_s * 1000000).

(** [a] comes no later than [b]: run_at ascending, then priority
    descending, then created_at ascending. *)
Definition order_le (a b : Job.t) : Prop :=
  Job.run_at a < Job.run_at b \/
  (Job.run_at a = Job.run_at b /\
   (Job.priority b < Job.priority a \/
    (Job.priority a = Job.priority b /\
     Job.created_at a <= Job.created_at b))).

(** What a successful claim changes on the selected row. *)
Definition claimed_from (worker_id : string) (now : datetime)
    (job claimed : Job.t) : Prop :=
  Job.locked_by claimed = Some worker_id /\
  Job.locked_at claimed = Some now /\
  Job.updated_at claimed = now /\
  Job.state claimed = "processing" /\
  Job.id claimed = Job.id job /\
  Job.command claimed = Job.command job /\
  Job.attempts claimed = Job.attempts job /\
  Job.max_retries claimed = Job.max_retries job /\
  Job.backoff_base claimed = Job.backoff_base job /\
  Job.priority claimed = Job.priority job /\
  Job.run_at claimed = Job.run_at job /\
  Job.timeout_s claimed = Job.timeout_s job /\
  Job.created_at claimed = Job.created_at job /\
  Job.last_exit_code claimed = Job.last_exit_code job /\
  Job.stdout claimed = Job.stdout job /\
  Job.stderr claimed = Job.stderr job /\
  Job.duration_ms claimed = Job.duration_ms job.

(** The lock invariant of a job row. *)
Definition lock_inv_job (job : Job.t) : Prop :=
  (Job.state job = "processing" <->
   Job.locked_by job <> None /\ Job.locked_at job <> None) /\
  (Job.state job = "pending" \/ Job.state job = "failed" \/
   Job.state job = "completed" \/ Job.state job = "dead" ->
   Job.locked_by job = None /\ Job.locked_at job = None).

Definition lock_inv (w : World) : Prop :=
  map_Forall (fun _ job => lock_inv_job job) (jobs w).

(** The retry-budget invariant of a job row. *)
Definition attempts_inv_job (job : Job.t) : Prop :=
  0 <= Job.attempts job <= Job.max_retries job /\
  (Job.state job = "dead" -> Job.attempts job = Job.max_retries job).

Definition attempts_inv (w : World) : Prop :=
  map_Forall (fun _ job => attempts_inv_job job) (jobs w).

(** A call of one of the job-mutating repository methods. *)
Inductive repo_call :=
| CreateJob (command : string) (job_id : option string) (priority : Z)
    (run_at : option run_at_arg) (timeout_s : option Z)
    (max_retries : option Z) (backoff_base : option float)
| ClaimJob (worker_id : string)
| MarkSuccess (job_id : string) (exit_code : Z) (stdout stderr : text)
    (duration_ms : Z)
| MarkFailure (job_id : string) (exit_code : Z) (stdout stderr : text)
    (duration_ms : Z)
| RetryDlqJob (job_id : string).

(** The world after the call, whether it returned or raised. *)
Definition perform (c : repo_call) (w : World) : World :=
  match c with
  | CreateJob command job_id priority run_at timeout_s max_retries bb =>
      world_of (create_job command job_id priority run_at timeout_s
                           max_retries bb w)
  | ClaimJob worker_id => world_of (claim_job worker_id w)
  | MarkSuccess job_id ec out err d =>
      world_of (mark_success job_id ec out err d w)
  | MarkFailure job_id ec out err d =>
      world_of (mark_failure job_id ec out err d w)
  | RetryDlqJob job_id => world_of (retry_dlq_job job_id w)
  end.

(** The [max_retries] a [create_job] call would store is positive; the
    mark_failure target, when present, still has retry budget left. *)
Definition within_budget (c : repo_call) (w : World) : Prop :=
  match c with
  | CreateJob _ _ _ _ _ (Some m) _ => 0 < m
  | CreateJob _ _ _ _ _ None _ =>
      forall m, get_int "max_retries" 3 w = Ok m w -> 0 < m
  | MarkFailure job_id _ _ _ _ =>
      forall job, jobs w !! job_id = Some job ->
                  Job.attempts job < Job.max_retries job
  | _ => True
  end.

(** What [mark_failure] stores on a row that is present. *)
Definition failure_recorded (ec : Z) (out err : text) (d : Z) (now : datetime)
    (job job' : Job.t) : Prop :=
  Job.attempts job' = Job.attempts job + 1 /\
  Job.last_exit_code job' = Some ec /\
  Job.stdout job' = truncate_output out /\
  Job.stderr job' = truncate_output err /\
  Job.duration_ms job' = Some d /\
  Job.updated_at job' = now /\
  Job.locked_by job' = None /\
  Job.locked_at job' = None /\
  Job.max_retries job' = Job.max_retries job /\
  Job.backoff_base job' = Job.backoff_base job.


(** Executable forms of the two row invariants and a scan of the jobs
    table with such a check. *)
Definition lock_inv_jobb (job : Job.t) : bool :=
  let st := Job.state job in
  let both_set := match Job.locked_by job, Job.locked_at job with
                  | Some _, Some _ => true
                  | _, _ => false
                  end in
  let both_null := match Job.locked_by job, Job.locked_at job with
                   | None, None => true
                   | _, _ => false
                   end in
  Bool.eqb (String.eqb st "processing") both_set
  && (if String.eqb st "pending" || String.eqb st "failed"
         || String.eqb st "completed" || String.eqb st "dead"
      then both_null else true).

Definition attempts_inv_jobb (job : Job.t) : bool :=
  (0 <=? Job.attempts job)
  && (Job.attempts job <=? Job.max_retries job)
  && (negb (String.eqb (Job.state job) "dead")
      || (Job.attempts job =? Job.max_retries job)).

Definition all_jobs (check : Job.t -> bool) (w : World) : bool :=
  forallb (fun r => check (snd r)) (map_to_list (jobs w)).

(** The tables of two worlds agree. *)
Definition same_tables (w w' : World) : Prop :=
  jobs w' = jobs w /\ workers w' = workers w /\ config w' = config w.

(** A computation that leaves the three tables as they are. *)
Definition readonly {A} (m : M A) : Prop :=
  forall w, same_tables w (world_of (m w)).

(** The UTF-8 encoding of a code point, the form in which the store
    keeps a TEXT value; the byte size of a [str] is the length of its
    encoding. *)
Definition utf8_encode_char (c : N) : list N :=
  (if c <? 128 then [c]
   else if c <? 2048 then [192 + c / 64; 128 + c mod 64]
   else if c <? 65536
        then [224 + c / 4096; 128 + (c / 64) mod 64; 128 + c mod 64]
        else [240 + c / 262144; 128 + (c / 4096) mod 64;
              128 + (c / 64) mod 64; 128 + c mod 64])%N.

Definition utf8_encode (s : text) : list N := flat_map utf8_encode_char s.

Definition byte_size (s : text) : nat := length (utf8_encode s).

(** Every row is stored under its own id. *)
Definition wf_jobs (w : World) : Prop :=
  map_Forall (fun key job => Job.id job = key) (jobs w).

(** The columns no repository method assigns after creation. *)
Definition same_identity (job job' : Job.t) : Prop :=
  Job.id job' = Job.id job /\
  Job.command job' = Job.command job /\
  Job.max_retries job' = Job.max_retries job /\
  Job.backoff_base job' = Job.backoff_base job /\
  Job.priority job' = Job.priority job /\
  Job.timeout_s job' = Job.timeout_s job /\
  Job.created_at job' = Job.created_at job.

(** How a call may move the [attempts] of a row that existed before. *)
Definition attempts_step (c : repo_call) (key : string) (job job' : Job.t)
  : Prop :=
  match c with
  | MarkFailure job_id _ _ _ _ =>
      if decide (job_id = key)
      then Job.attempts job' = Job.attempts job \/
           Job.attempts job' = Job.attempts job + 1
      else Job.attempts job' = Job.attempts job
  | RetryDlqJob job_id =>
      if decide (job_id = key)
      then Job.attempts job' = Job.attempts job \/ Job.attempts job' = 0
      else Job.attempts job' = Job.attempts job
  | _ => Job.attempts job' = Job.attempts job
  end.

(** A computation that leaves the worker registry and the config table
    as they are. *)
Definition registry_kept {A} (m : M A) : Prop :=
  forall w, workers (world_of (m w)) = workers w /\
            config (world_of (m w)) = config w.

(** A row of the jobs table. *)
Definition stored (w : World) (job : Job.t) : Prop :=
  exists key, jobs w !! key = Some job.

(** The filters of [list_jobs] in words: a non-empty [state] must match,
    and [pending_ready_only] asks for a pending job that is due. *)
Definition listed_filter (state : option string) (pending_ready_only : bool)
    (now : datetime) (job : Job.t) : Prop :=
  (forall s, state = Some s -> s <> ""%string -> Job.state job = s) /\
  (pending_ready_only = true ->
   Job.state job = "pending" /\ Job.run_at job <= now).

Definition list_filterb (state : option string) (pending_ready_only : bool)
    (now : datetime) (job : Job.t) : bool :=
  match state with
  | Some s => if negb (String.eqb s "")
              then String.eqb (Job.state job) s
              else true
  | None => true
  end
  && (if pending_ready_only
      then String.eqb (Job.state job) "pending" && (Job.run_at job <=? now)
      else true).

(** A [limit] that [list_jobs] does not apply as a bound. *)
Definition unbounded (limit : option Z) : Prop :=
  limit = None \/ exists n, limit = Some n /\ n <= 0.

End Specification.

(** * Concrete stores

    Small worlds over [exact_runtime] on which the model is run. *)

Definition example_clock (n : nat) : datetime :=
  1700000000000000 + 1000 * Z.of_nat n.

Definition example_job (id state : string) (attempts max_retries priority : Z)
    (run_at created_at : datetime) : Job.t :=
  {| Job.id := id;
     Job.command := "false";
     Job.state := state;
     Job.attempts := attempts;
     Job.max_retries := max_retries;
     Job.backoff_base := 2 # 1;
     Job.priority := priority;
     Job.run_at := run_at;
     Job.timeout_s := None;
     Job.created_at := created_at;
     Job.updated_at := created_at;
     Job.locked_by := None;
     Job.locked_at := None;
     Job.last_exit_code := None;
     Job.stdout := None;
     Job.stderr := None;
     Job.duration_ms := None |}.

Definition example_world (js : gmap string Job.t)
    (cfg : gmap string string) : World :=
  mkWorld exact_runtime js ∅ cfg example_clock 0 (fun _ => 1 # 4) 0
          (fun _ => "00000000-0000-4000-8000-000000000000") 0.

Definition empty_world : World := example_world ∅ ∅.

(** One pending job with two of its three attempts left. *)
Definition retry_job : Job.t :=
  example_job "j" "pending" 0 3 0 1600000000000000 1600000000000000.

Definition retry_world : World := example_world (<["j" := retry_job]> ∅) ∅.

(** Two ready jobs with equal [run_at], one scheduled job and one dead
    job; [lock_timeout_s] is set in the config table. *)
Definition low_job : Job.t :=
  example_job "L" "pending" 0 3 0 1600000000000000 1500000000000000.
Definition high_job : Job.t :=
  example_job "H" "pending" 0 3 100 1600000000000000 1500000000000001.
Definition future_job : Job.t :=
  example_job "F" "pending" 0 3 1000 1800000000000000 1500000000000002.
Definition dead_job : Job.t :=
  example_job "D" "dead" 3 3 0 1600000000000000 1500000000000003.

Definition claim_world : World :=
  example_world
    (<["L" := low_job]> (<["H" := high_job]> (<["F" := future_job]>
       (<["D" := dead_job]> ∅))))
    (<["lock_timeout_s" := "300"]> ∅).

(** The world after [worker-1] has registered once. *)
Definition registered_world : World :=
  world_of (register_worker "worker-1" empty_world).

(** A job created with [max_retries = 1] and failed once, then once
    more. *)
Definition created_world : World :=
  perform (CreateJob "false" (Some "j") 0 None None (Some 1) None)
          empty_world.
Definition failed_once_world : World :=
  perform (MarkFailure "j" 1 [] [] 0) created_world.
Definition failed_twice_world : World :=
  perform (MarkFailure "j" 1 [] [] 0) failed_once_world.

(** 8193 copies of U+00E9, two bytes each in UTF-8. *)
Definition long_output : text := replicate (Z.to_nat 8193) 233%N.

(** 5000 copies of U+00E9: 10000 bytes in 5000 code points. *)
Definition wide_output : text := replicate (Z.to_nat 5000) 233%N.

(** A job left in [processing] by a worker that died long ago. *)
Definition stuck_job : Job.t :=
  Job.set_locked_at (Some 0)
    (Job.set_locked_by (Some "worker-0")
       (example_job "S" "processing" 0 3 0 1600000000000000 1500000000000000)).

Definition stuck_world : World :=
  example_world (<["S" := stuck_job]> ∅) (<["lock_timeout_s" := "300"]> ∅).

(** The row [claim_job] writes for [worker] at [now]. *)
Definition claimed_by (worker : string) (now : datetime) (job : Job.t)
  : Job.t :=
  Job.set_updated_at now
    (Job.set_state "processing"
       (Job.set_locked_at (Some now) (Job.set_locked_by (Some worker) job))).

(** [claim_world] after a claim by [worker-1] and one by [worker-2]. *)
Definition first_claim_world : World :=
  world_of (claim_job "worker-1" claim_world).
Definition second_claim_world : World :=
  world_of (claim_job "worker-2" first_claim_world).

(** A store holding one dead job. *)
Definition dead_world : World := example_world (<["D" := dead_job]> ∅) ∅.


(** A job created with a negative [timeout_s]. *)
Definition negative_timeout_job : Job.t :=
  {| Job.id := "N";
     Job.command := "sleep 1";
     Job.state := "processing";
     Job.attempts := 0;
     Job.max_retries := 3;
     Job.backoff_base := 2 # 1;
     Job.priority := 0;
     Job.run_at := 1600000000000000;
     Job.timeout_s := Some (-5);
     Job.created_at := 1500000000000000;
     Job.updated_at := 1500000000000000;
     Job.locked_by := Some "worker-1";
     Job.locked_at := Some 1600000000000000;
     Job.last_exit_code := None;
     Job.stdout := None;
     Job.stderr := None;
     Job.duration_ms := None |}.

(** A config table with a global job timeout of 30 seconds. *)
Definition timeout_world : World :=
  example_world ∅ (<["job_timeout_s" := "30"]> ∅).

(** A pending job whose command succeeds. *)
Definition echo_job : Job.t :=
  {| Job.id := "E";
     Job.command := "echo hi";
     Job.state := "pending";
     Job.attempts := 0;
     Job.max_retries := 3;
     Job.backoff_base := 2 # 1;
     Job.priority := 0;
     Job.run_at := 1600000000000000;
     Job.timeout_s := None;
     Job.created_at := 1500000000000000;
     Job.updated_at := 1500000000000000;
     Job.locked_by := None;
     Job.locked_at := None;
     Job.last_exit_code := None;
     Job.stdout := None;
     Job.stderr := None;
     Job.duration_ms := None |}.

Definition echo_world : World := example_world (<["E" := echo_job]> ∅) ∅.
Definition echo_claimed_world : World :=
  world_of (claim_job "worker-1" echo_world).
Definition echo_processed_world : World :=
  world_of (_process_job (claimed_by "worker-1" (example_clock 0) echo_job)
                         echo_claimed_world).

(** * Properties *)

Section Properties.
Context `{RT : Runtime}.

Notation "'let*' x := m 'in' k" := (bind m (fun x => k))
  (at level 10, x name, m at level 100, k at level 200).

(** *** The monad and the config reads *)

Lemma get_int_cases key default w :
  (exists v, get_int key default w = Ok v w) \/
  get_int key default w = Raise ValueError w.
Proof.
  unfold get_int, bind, config_get.
  destruct (config w !! key) as [s|]; [|left; eexists; reflexivity].
  destruct (negb (String.eqb s "")); [|left; eexists; reflexivity].
  unfold lift_option. destruct (py_int s); [left; eexists|right]; reflexivity.
Qed.

Lemma get_int_world key default w r :
  get_int key default w = r -> world_of r = w.
Proof.
  intros <-. destruct (get_int_cases key default w) as [[v ->] | ->]; reflexivity.
Qed.

(** *** The claim query *)

Lemma eligible_iff now lock_timeout_s job :
  eligible now lock_timeout_s job = true <->
  eligible_spec now lock_timeout_s job.
Proof.
  unfold eligible, eligible_spec, timedelta_int_seconds.
  rewrite !andb_true_iff, !orb_true_iff, !String.eqb_eq, Z.leb_le.
  split.
  - intros [[Hst Hrun] Hlock]. repeat split; [exact Hst | exact Hrun |].
    destruct Hlock as [[Hb | Ha] | Hexp].
    + left. destruct (Job.locked_by job); [discriminate | reflexivity].
    + right; left. destruct (Job.locked_at job); [discriminate | reflexivity].
    + right; right. destruct (Job.locked_at job) as [la|]; [|discriminate].
      exists la. split; [reflexivity | now apply Z.ltb_lt].
  - intros (Hst & Hrun & Hlock). repeat split; [exact Hst | exact Hrun |].
    destruct Hlock as [Hb | [Ha | (la & Ha & Hlt)]].
    + left; left. now rewrite Hb.
    + left; right. now rewrite Ha.
    + right. rewrite Ha. now apply Z.ltb_lt.
Qed.

Lemma order_before_false a b : order_before b a = false <-> order_le a b.
Proof.
  unfold order_before, order_le.
  rewrite !orb_false_iff, !andb_false_iff, !orb_false_iff, !andb_false_iff.
  rewrite !Z.ltb_ge, !Z.eqb_neq. lia.
Qed.

Lemma order_le_refl a : order_le a a.
Proof. unfold order_le. lia. Qed.

Lemma order_le_trans a b c : order_le a b -> order_le b c -> order_le a c.
Proof. unfold order_le. lia. Qed.

Lemma order_le_total a b : order_le a b \/ order_le b a.
Proof. unfold order_le. lia. Qed.

Lemma select_first_None rows : select_first rows = None <-> rows = [].
Proof.
  destruct rows as [|r rows]; simpl; [tauto|].
  split; [|discriminate].
  destruct (select_first rows) as [b|]; [|discriminate].
  destruct (order_before (snd b) (snd r)); discriminate.
Qed.

Lemma select_first_least rows r :
  select_first rows = Some r ->
  In r rows /\ forall r', In r' rows -> order_le (snd r) (snd r').
Proof.
  revert r. induction rows as [|x rows IH]; intros r; simpl; [discriminate|].
  destruct (select_first rows) as [b|] eqn:Hsel.
  - destruct (IH b eq_refl) as [Hin Hmin].
    destruct (order_before (snd b) (snd x)) eqn:Hbx; intros [= <-].
    + split; [now right|]. intros r' [<- | Hr'].
      * destruct (order_le_total (snd b) (snd x)) as [Hle | Hle]; [exact Hle|].
        apply order_before_false in Hle. congruence.
      * now apply Hmin.
    + split; [now left|]. intros r' [<- | Hr'].
      * apply order_le_refl.
      * apply order_le_trans with (snd b); [|now apply Hmin].
        now apply order_before_false.
  - apply select_first_None in Hsel. subst rows. intros [= <-].
    split; [now left|]. intros r' [<- | []]. apply order_le_refl.
Qed.

Lemma claimed_from_setters worker_id now job :
  claimed_from worker_id now job
    (Job.set_updated_at now
       (Job.set_state "processing"
          (Job.set_locked_at (Some now)
             (Job.set_locked_by (Some worker_id) job)))).
Proof. unfold claimed_from. simpl. repeat split. Qed.


(** *** Recording an outcome *)

Lemma mark_success_absent w job_id ec out err d :
  jobs w !! job_id = None -> mark_success job_id ec out err d w = Ok tt w.
Proof. intros Hno. unfold mark_success, bind, session_get_job. now rewrite Hno. Qed.

Lemma mark_success_present w job_id job ec out err d :
  jobs w !! job_id = Some job ->
  exists job',
    mark_success job_id ec out err d w
    = Ok tt (set_jobs (<[job_id := job']> (jobs w)) (tick w)) /\
    Job.state job' = "completed" /\
    Job.last_exit_code job' = Some ec /\
    Job.stdout job' = truncate_output out /\
    Job.stderr job' = truncate_output err /\
    Job.duration_ms job' = Some d /\
    Job.locked_by job' = None /\
    Job.locked_at job' = None /\
    Job.updated_at job' = clock w (ticks w) /\
    Job.attempts job' = Job.attempts job /\
    Job.max_retries job' = Job.max_retries job.
Proof.
  intros Hjob. unfold mark_success, bind, session_get_job. rewrite Hjob.
  unfold utcnow, session_commit_job. simpl.
  eexists. split; [reflexivity|]. simpl. repeat split.
Qed.

Lemma mark_failure_absent w job_id ec out err d :
  jobs w !! job_id = None -> mark_failure job_id ec out err d w = Ok tt w.
Proof. intros Hno. unfold mark_failure, bind, session_get_job. now rewrite Hno. Qed.

Lemma calculate_backoff_delay_cases attempts base max_backoff_s w :
  match calculate_backoff_delay attempts base max_backoff_s w with
  | Ok _ w' => w' = draw w
  | Raise _ w' => w' = w
  end.
Proof.
  unfold calculate_backoff_delay, bind, lift_option.
  destruct (float_pow base attempts); reflexivity.
Qed.

Lemma get_next_run_at_cases attempts base max_backoff_s w :
  match get_next_run_at attempts base max_backoff_s w with
  | Ok next w' =>
      exists delay td,
        calculate_backoff_delay attempts base max_backoff_s w
        = Ok delay (draw w) /\
        timedelta_seconds delay = Some td /\
        next = clock w (ticks w) + td /\
        w' = tick (draw w)
  | Raise _ w' => same_tables w w'
  end.
Proof.
  unfold get_next_run_at, bind.
  pose proof (calculate_backoff_delay_cases attempts base max_backoff_s w) as Hc.
  destruct (calculate_backoff_delay attempts base max_backoff_s w)
    as [delay w1 | e w1]; subst w1; [|repeat split].
  unfold utcnow, lift_option. simpl.
  destruct (timedelta_seconds delay) as [td|] eqn:Htd; simpl.
  - exists delay, td. repeat split. exact Htd.
  - repeat split.
Qed.

Lemma mark_failure_dead w job_id job ec out err d :
  jobs w !! job_id = Some job ->
  Job.max_retries job <= Job.attempts job + 1 ->
  exists job',
    mark_failure job_id ec out err d w
    = Ok tt (set_jobs (<[job_id := job']> (jobs w)) (tick w)) /\
    failure_recorded ec out err d (clock w (ticks w)) job job' /\
    Job.state job' = "dead" /\
    Job.run_at job' = Job.run_at job.
Proof.
  intros Hjob Hmax. unfold mark_failure, bind, session_get_job. rewrite Hjob.
  unfold utcnow. simpl.
  destruct (Z.leb_spec (Job.max_retries job) (Job.attempts job + 1)); [|lia].
  unfold session_commit_job. simpl.
  eexists. split; [reflexivity|]. unfold failure_recorded. simpl. repeat split.
Qed.

Lemma mark_failure_retry w job_id job ec out err d :
  jobs w !! job_id = Some job ->
  Job.attempts job + 1 < Job.max_retries job ->
  match mark_failure job_id ec out err d w with
  | Ok _ w' =>
      exists max_backoff_s delay td job',
        get_int "max_backoff_s" 3600 w = Ok max_backoff_s w /\
        calculate_backoff_delay (Job.attempts job + 1) (Job.backoff_base job)
                                max_backoff_s (tick w)
        = Ok delay (draw (tick w)) /\
        timedelta_seconds delay = Some td /\
        w' = set_jobs (<[job_id := job']> (jobs w)) (tick (draw (tick w))) /\
        failure_recorded ec out err d (clock w (ticks w)) job job' /\
        Job.state job' = "failed" /\
        Job.run_at job' = clock w (S (ticks w)) + td
  | Raise _ w' => same_tables w w'
  end.
Proof.
  intros Hjob Hlt. unfold mark_failure, bind, session_get_job. rewrite Hjob.
  unfold utcnow. simpl.
  destruct (Z.leb_spec (Job.max_retries job) (Job.attempts job + 1)); [lia|].
  destruct (get_int_cases "max_backoff_s" 3600 (tick w)) as [[mb Hmb] | Hmb];
    rewrite Hmb; [|repeat split].
  simpl.
  pose proof (get_next_run_at_cases (Job.attempts job + 1)
                (Job.backoff_base job) mb (tick w)) as Hnext.
  destruct (get_next_run_at (Job.attempts job + 1) (Job.backoff_base job) mb
                            (tick w)) as [next w1 | e w1].
  - destruct Hnext as (delay & td & Hdelay & Htd & -> & ->).
    unfold session_commit_job. simpl.
    exists mb, delay, td. eexists. split.
    { revert Hmb. unfold get_int, bind, config_get. simpl.
      destruct (config w !! "max_backoff_s") as [v|]; [|now intros [= ->]].
      destruct (negb (String.eqb v "")); [|now intros [= ->]].
      unfold lift_option. destruct (py_int v); [|discriminate].
      now intros [= ->]. }
    split; [exact Hdelay|]. split; [exact Htd|]. split; [reflexivity|].
    unfold failure_recorded. simpl. repeat split.
  - destruct Hnext as (Hj & Hw & Hc). repeat split; assumption.
Qed.

Lemma get_int_config key default w1 w2 v :
  config w1 = config w2 ->
  get_int key default w1 = Ok v w1 -> get_int key default w2 = Ok v w2.
Proof.
  intros Hcfg. unfold get_int, bind, config_get. rewrite Hcfg.
  destruct (config w2 !! key) as [s|]; [|now intros [= ->]].
  destruct (negb (String.eqb s "")); [|now intros [= ->]].
  unfold lift_option. destruct (py_int s); [|discriminate].
  now intros [= ->].
Qed.


(** C7. [retry_dlq_job] always returns; it returns [True] exactly when
    the job exists in state [dead]. In that case the row becomes
    [pending] with [attempts = 0], [run_at] the clock reading of the
    first [utcnow()], the lock cleared and [updated_at] the reading of
    the second [utcnow()], every other column and row kept. When it
    returns [False] the world is unchanged. *)
Theorem retry_dlq_job_transition w job_id :
  exists b w',
    retry_dlq_job job_id w = Ok b w' /\
    (b = true <->
     exists job, jobs w !! job_id = Some job /\ Job.state job = "dead") /\
    (b = true ->
     exists job job',
       jobs w !! job_id = Some job /\
       w' = set_jobs (<[job_id := job']> (jobs w)) (tick (tick w)) /\
       Job.state job' = "pending" /\
       Job.attempts job' = 0 /\
       Job.run_at job' = clock w (ticks w) /\
       Job.locked_by job' = None /\
       Job.locked_at job' = None /\
       Job.updated_at job' = clock w (S (ticks w)) /\
       Job.max_retries job' = Job.max_retries job /\
       Job.id job' = Job.id job /\
       Job.command job' = Job.command job /\
       Job.priority job' = Job.priority job /\
       Job.backoff_base job' = Job.backoff_base job /\
       Job.timeout_s job' = Job.timeout_s job /\
       Job.created_at job' = Job.created_at job /\
       Job.last_exit_code job' = Job.last_exit_code job /\
       Job.stdout job' = Job.stdout job /\
       Job.stderr job' = Job.stderr job /\
       Job.duration_ms job' = Job.duration_ms job) /\
    (b = false -> w' = w).
Proof.
  unfold retry_dlq_job, bind, session_get_job.
  destruct (jobs w !! job_id) as [job|] eqn:Hjob.
  - destruct (String.eqb_spec (Job.state job) "dead") as [Hdead | Hdead]; simpl.
    + eexists true, _. split; [reflexivity|]. split; [|split].
      * split; [|reflexivity]. intros _. now exists job.
      * intros _. exists job. eexists. split; [reflexivity|].
        split; [reflexivity|]. simpl. repeat split.
      * discriminate.
    + exists false, w. split; [reflexivity|]. split; [|split].
      * split; [discriminate|]. intros (job0 & [= <-] & Hd). contradiction.
      * discriminate.
      * reflexivity.
  - exists false, w. split; [reflexivity|]. split; [|split].
    + split; [discriminate|]. intros (job0 & [=] & _).
    + discriminate.
    + reflexivity.
Qed.

(** *** The worker registry *)

(** C6, as the code has it. [register_worker] is a plain INSERT: on a
    fresh id it stores and returns the row with
    [started_at = last_heartbeat = now] and [status = active]; on an id
    that is already registered it raises the integrity error of the
    primary key and leaves the tables as they were. *)
Theorem register_worker_insert_only w worker_id :
  match workers w !! worker_id with
  | None =>
      exists worker,
        register_worker worker_id w
        = Ok worker (set_workers (<[worker_id := worker]> (workers w))
                                 (tick w)) /\
        Worker.id worker = worker_id /\
        Worker.started_at worker = clock w (ticks w) /\
        Worker.last_heartbeat worker = clock w (ticks w) /\
        Worker.status worker = "active"
  | Some _ =>
      register_worker worker_id w = Raise IntegrityError (tick w) /\
      same_tables w (tick w)
  end.
Proof.
  unfold register_worker, bind, utcnow, session_add_worker. simpl.
  destruct (workers w !! worker_id) as [old|].
  - split; [reflexivity | repeat split].
  - eexists. split; [reflexivity|]. simpl. repeat split.
Qed.

(** *** Computations that only read the tables *)

Lemma same_tables_refl w : same_tables w w.
Proof. repeat split. Qed.

Lemma same_tables_trans w1 w2 w3 :
  same_tables w1 w2 -> same_tables w2 w3 -> same_tables w1 w3.
Proof. unfold same_tables. intros (-> & -> & ->) (-> & -> & ->). auto. Qed.

Lemma readonly_ret {A} (a : A) : readonly (ret a).
Proof. intros w. apply same_tables_refl. Qed.

Lemma readonly_raise {A} e : readonly (@raise _ A e).
Proof. intros w. apply same_tables_refl. Qed.

Lemma readonly_bind {A B} (m : M A) (k : A -> M B) :
  readonly m -> (forall a, readonly (k a)) -> readonly (bind m k).
Proof.
  intros Hm Hk w. unfold bind. specialize (Hm w).
  destruct (m w) as [a w' | e w']; simpl in *; [|exact Hm].
  eapply same_tables_trans; [exact Hm | apply Hk].
Qed.

Lemma readonly_lift_option {A} e (o : option A) : readonly (lift_option e o).
Proof. destruct o; [apply readonly_ret | apply readonly_raise]. Qed.

Lemma readonly_utcnow : readonly utcnow.
Proof. intros w. repeat split. Qed.

Lemma readonly_uuid4 : readonly uuid4.
Proof. intros w. repeat split. Qed.

Lemma readonly_session_get_job job_id : readonly (session_get_job job_id).
Proof. intros w. repeat split. Qed.

Lemma readonly_get_int key default : readonly (get_int key default).
Proof. intros w. now rewrite (get_int_world key default w _ eq_refl). Qed.

Lemma readonly_get_float key default : readonly (get_float key default).
Proof.
  unfold get_float. apply readonly_bind; [intros w; repeat split|].
  intros [s|]; [|apply readonly_ret].
  destruct (negb (String.eqb s ""));
    [apply readonly_lift_option | apply readonly_ret].
Qed.

Lemma readonly_snapshot : readonly snapshot.
Proof.
  unfold snapshot.
  apply readonly_bind; [apply readonly_get_int | intros mr].
  apply readonly_bind; [apply readonly_get_float | intros bb].
  apply readonly_bind; [apply readonly_get_int | intros jt].
  apply readonly_ret.
Qed.

Lemma readonly_ensure_utc dt : readonly (ensure_utc dt).
Proof. destruct dt; [apply readonly_ret | apply readonly_lift_option]. Qed.

Lemma readonly_Ok {A} (m : M A) w a w' :
  readonly m -> m w = Ok a w' -> same_tables w w'.
Proof. intros Hm Heq. specialize (Hm w). now rewrite Heq in Hm. Qed.

Lemma readonly_Raise {A} (m : M A) w e w' :
  readonly m -> m w = Raise e w' -> same_tables w w'.
Proof. intros Hm Heq. specialize (Hm w). now rewrite Heq in Hm. Qed.

Lemma bind_cases {A B} (m : M A) (k : A -> M B) w (Q : result B -> Prop) :
  (forall e w', m w = Raise e w' -> Q (Raise e w')) ->
  (forall a w', m w = Ok a w' -> Q (k a w')) ->
  Q (bind m k w).
Proof. unfold bind. intros He Ha. destruct (m w); auto. Qed.

Lemma snapshot_max_retries w snap w' :
  snapshot w = Ok snap w' ->
  get_int "max_retries" 3 w = Ok (snap_max_retries snap) w.
Proof.
  unfold snapshot, bind.
  destruct (get_int_cases "max_retries" 3 w) as [[mr ->] | ->]; [|discriminate].
  destruct (get_float "backoff_base" float_two w) as [bb w1|]; [|discriminate].
  destruct (get_int "job_timeout_s" 0 w1) as [jt w2|]; [|discriminate].
  now intros [= <- _].
Qed.

(** *** Creation *)

Lemma create_job_effect w command job_id priority run_at timeout_s
    max_retries backoff_base :
  match create_job command job_id priority run_at timeout_s max_retries
                   backoff_base w with
  | Ok job w' =>
      jobs w !! Job.id job = None /\
      jobs w' = <[Job.id job := job]> (jobs w) /\
      Job.state job = "pending" /\
      Job.attempts job = 0 /\
      Job.locked_by job = None /\
      Job.locked_at job = None /\
      match max_retries with
      | Some m => Job.max_retries job = m
      | None => exists w0, config w0 = config w /\
                           get_int "max_retries" 3 w0
                           = Ok (Job.max_retries job) w0
      end
  | Raise _ w' => same_tables w w'
  end.
Proof.
  unfold create_job.
  apply bind_cases; intros jid w1 H1.
  { destruct job_id; discriminate H1. }
  assert (T1 : same_tables w w1).
  { destruct job_id; [now injection H1 as <- <- |].
    eapply readonly_Ok; [apply readonly_uuid4 | exact H1]. }
  apply bind_cases; intros existing w2 H2; [discriminate H2|].
  injection H2 as <- <-.
  destruct (jobs w1 !! jid) eqn:Hfree; [exact T1|].
  apply bind_cases; intros snap w3 H3.
  { eapply same_tables_trans; [exact T1|].
    eapply readonly_Raise; [apply readonly_snapshot | exact H3]. }
  assert (T3 : same_tables w1 w3)
    by (eapply readonly_Ok; [apply readonly_snapshot | exact H3]).
  apply snapshot_max_retries in H3.
  set (ra := match run_at with Some dt => _ | None => _ end).
  assert (Hra : readonly ra).
  { subst ra. destruct run_at as [dt|]; [|apply readonly_utcnow].
    destruct (run_at_truthy (Some dt));
      [apply readonly_ensure_utc | apply readonly_utcnow]. }
  apply bind_cases; intros t w4 H4.
  { eapply same_tables_trans; [exact T1|].
    eapply same_tables_trans; [exact T3|].
    eapply readonly_Raise; [exact Hra | exact H4]. }
  assert (T4 : same_tables w3 w4) by (eapply readonly_Ok; eassumption).
  unfold utcnow at 1 2. unfold bind at 1 2. unfold bind, session_add_job.
  simpl.
  destruct T1 as (J1 & _ & C1), T3 as (J3 & _ & C3), T4 as (J4 & _ & C4).
  rewrite J4, J3, Hfree. simpl. rewrite <- J1, Hfree.
  repeat split.
  destruct max_retries as [m|]; [reflexivity|].
  exists w1. split; [exact C1 | exact H3].
Qed.

(** *** How each call changes the jobs table *)

Lemma claim_job_run w worker_id lock_timeout_s :
  get_int "lock_timeout_s" 300 w = Ok lock_timeout_s w ->
  claim_job worker_id w
  = match select_first
            (List.filter
               (fun r => eligible (clock w (ticks w)) lock_timeout_s (snd r))
               (map_to_list (jobs w))) with
    | Some (key, job) =>
        let claimed :=
          Job.set_updated_at (clock w (ticks w))
            (Job.set_state "processing"
               (Job.set_locked_at (Some (clock w (ticks w)))
                  (Job.set_locked_by (Some worker_id) job))) in
        Ok (Some claimed) (set_jobs (<[key := claimed]> (jobs w)) (tick w))
    | None => Ok None (tick w)
    end.
Proof.
  intros Hcfg. unfold claim_job, bind. rewrite Hcfg.
  unfold utcnow, select_eligible. simpl.
  destruct (select_first _) as [[key job]|]; reflexivity.
Qed.

Lemma selected_row_present now lock_timeout_s (js : gmap string Job.t) key job :
  select_first
    (List.filter (fun r => eligible now lock_timeout_s (snd r))
                 (map_to_list js)) = Some (key, job) ->
  js !! key = Some job.
Proof.
  intros Hsel. apply select_first_least in Hsel as [Hin _].
  apply filter_In in Hin as [Hin _].
  now apply list_elem_of_In, elem_of_map_to_list in Hin.
Qed.

Lemma claim_job_effect w worker_id :
  jobs (world_of (claim_job worker_id w)) = jobs w \/
  exists key job claimed now,
    jobs w !! key = Some job /\
    claimed_from worker_id now job claimed /\
    jobs (world_of (claim_job worker_id w)) = <[key := claimed]> (jobs w).
Proof.
  destruct (get_int_cases "lock_timeout_s" 300 w) as [[lt Hcfg] | Hcfg].
  - rewrite (claim_job_run _ _ _ Hcfg).
    destruct (select_first _) as [[key job]|] eqn:Hsel; [|now left].
    right. apply selected_row_present in Hsel.
    eexists key, job, _, (clock w (ticks w)).
    split; [exact Hsel|]. split; [apply claimed_from_setters | reflexivity].
  - left. unfold claim_job, bind. now rewrite Hcfg.
Qed.

Lemma mark_success_effect w job_id ec out err d :
  jobs (world_of (mark_success job_id ec out err d w)) = jobs w \/
  exists job job',
    jobs w !! job_id = Some job /\
    jobs (world_of (mark_success job_id ec out err d w))
    = <[job_id := job']> (jobs w) /\
    Job.state job' = "completed" /\
    Job.locked_by job' = None /\
    Job.locked_at job' = None /\
    Job.attempts job' = Job.attempts job /\
    Job.max_retries job' = Job.max_retries job.
Proof.
  destruct (jobs w !! job_id) as [job|] eqn:Hjob.
  - right.
    destruct (mark_success_present w job_id job ec out err d Hjob)
      as (job' & -> & Hst & _ & _ & _ & _ & Hlb & Hla & _ & Hat & Hmr).
    now exists job, job'.
  - left. now rewrite mark_success_absent.
Qed.

Lemma mark_failure_effect w job_id ec out err d :
  jobs (world_of (mark_failure job_id ec out err d w)) = jobs w \/
  exists job job' now,
    jobs w !! job_id = Some job /\
    jobs (world_of (mark_failure job_id ec out err d w))
    = <[job_id := job']> (jobs w) /\
    failure_recorded ec out err d now job job' /\
    (Job.state job' = "dead" /\
     Job.max_retries job <= Job.attempts job + 1 \/
     Job.state job' = "failed" /\
     Job.attempts job + 1 < Job.max_retries job).
Proof.
  destruct (jobs w !! job_id) as [job|] eqn:Hjob.
  - destruct (Z.le_gt_cases (Job.max_retries job) (Job.attempts job + 1))
      as [Hge | Hlt].
    + right.
      destruct (mark_failure_dead w job_id job ec out err d Hjob Hge)
        as (job' & -> & Hrec & Hst & _).
      exists job, job', (clock w (ticks w)).
      split; [reflexivity|]. split; [reflexivity|]. split; [exact Hrec|].
      left. now split.
    + pose proof (mark_failure_retry w job_id job ec out err d Hjob Hlt) as Hr.
      destruct (mark_failure job_id ec out err d w) as [u w' | e w'].
      * right. destruct Hr as (mb & delay & td & job' & _ & _ & _ & -> & Hrec
                               & Hst & _).
        exists job, job', (clock w (ticks w)).
        split; [reflexivity|]. split; [reflexivity|]. split; [exact Hrec|].
        right. now split.
      * left. apply Hr.
  - left. now rewrite mark_failure_absent.
Qed.

Lemma retry_dlq_job_effect w job_id :
  jobs (world_of (retry_dlq_job job_id w)) = jobs w \/
  exists job job',
    jobs w !! job_id = Some job /\
    jobs (world_of (retry_dlq_job job_id w)) = <[job_id := job']> (jobs w) /\
    Job.state job' = "pending" /\
    Job.attempts job' = 0 /\
    Job.max_retries job' = Job.max_retries job /\
    Job.locked_by job' = None /\
    Job.locked_at job' = None.
Proof.
  unfold retry_dlq_job, bind, session_get_job.
  destruct (jobs w !! job_id) as [job|] eqn:Hjob; [|now left].
  destruct (negb (String.eqb (Job.state job) "dead")); [now left|].
  right. exists job. eexists. split; [reflexivity|].
  split; [reflexivity|]. simpl. repeat split.
Qed.

(** *** The lock invariant *)

Lemma lock_inv_job_unlocked job :
  Job.state job <> "processing" ->
  Job.locked_by job = None -> Job.locked_at job = None ->
  lock_inv_job job.
Proof.
  intros Hst Hlb Hla. split; [|auto].
  split; [contradiction|]. rewrite Hlb. now intros [? _].
Qed.

Lemma lock_inv_job_claimed worker_id now job claimed :
  claimed_from worker_id now job claimed -> lock_inv_job claimed.
Proof.
  intros (Hlb & Hla & _ & Hst & _). split.
  - rewrite Hlb, Hla. split; [now split | auto].
  - rewrite Hst. intros [? | [? | [? | ?]]]; discriminate.
Qed.

(** C8. Each of [create_job], [claim_job], [mark_success],
    [mark_failure] and [retry_dlq_job], with any arguments and whether it
    returns or raises, leaves every job row with: state [processing]
    exactly when [locked_by] and [locked_at] are both set, and both null
    in the states [pending], [failed], [completed] and [dead], provided
    the rows satisfied this before the call. *)
Theorem lock_invariant_preserved c w : lock_inv w -> lock_inv (perform c w).
Proof.
  intros Hinv. unfold lock_inv in *.
  destruct c as [cmd jid prio ra to mr bb | wid | jid ec out err d
                | jid ec out err d | jid]; simpl.
  - pose proof (create_job_effect w cmd jid prio ra to mr bb) as He.
    destruct (create_job cmd jid prio ra to mr bb w) as [job w' | e w']; simpl.
    + destruct He as (_ & -> & Hst & _ & Hlb & Hla & _).
      apply map_Forall_insert_2; [|exact Hinv].
      apply lock_inv_job_unlocked; [now rewrite Hst | exact Hlb | exact Hla].
    + destruct He as (-> & _). exact Hinv.
  - destruct (claim_job_effect w wid)
      as [-> | (key & job & claimed & now & _ & Hcl & ->)]; [exact Hinv|].
    apply map_Forall_insert_2; [|exact Hinv].
    eapply lock_inv_job_claimed; exact Hcl.
  - destruct (mark_success_effect w jid ec out err d)
      as [-> | (job & job' & _ & -> & Hst & Hlb & Hla & _)]; [exact Hinv|].
    apply map_Forall_insert_2; [|exact Hinv].
    apply lock_inv_job_unlocked; [now rewrite Hst | exact Hlb | exact Hla].
  - destruct (mark_failure_effect w jid ec out err d)
      as [-> | (job & job' & now & _ & -> & Hrec & Hst)]; [exact Hinv|].
    apply map_Forall_insert_2; [|exact Hinv].
    destruct Hrec as (_ & _ & _ & _ & _ & _ & Hlb & Hla & _).
    apply lock_inv_job_unlocked; [|exact Hlb | exact Hla].
    destruct Hst as [[-> _] | [-> _]]; discriminate.
  - destruct (retry_dlq_job_effect w jid)
      as [-> | (job & job' & _ & -> & Hst & _ & _ & Hlb & Hla)]; [exact Hinv|].
    apply map_Forall_insert_2; [|exact Hinv].
    apply lock_inv_job_unlocked; [now rewrite Hst | exact Hlb | exact Hla].
Qed.

(** *** The retry budget *)

(** C3, as the code has it. The five calls keep
    [0 <= attempts <= max_retries] and
    [state = dead -> attempts = max_retries] on every row, when
    [create_job] stores a positive [max_retries] and [mark_failure] is
    applied to a job whose [attempts] is still below [max_retries]. *)
Theorem attempts_invariant_preserved c w :
  attempts_inv w -> within_budget c w -> attempts_inv (perform c w).
Proof.
  intros Hinv Hpre. unfold attempts_inv in *.
  destruct c as [cmd jid prio ra to mr bb | wid | jid ec out err d
                | jid ec out err d | jid]; simpl.
  - pose proof (create_job_effect w cmd jid prio ra to mr bb) as He.
    destruct (create_job cmd jid prio ra to mr bb w) as [job w' | e w']; simpl.
    + destruct He as (_ & -> & Hst & Hat & _ & _ & Hmr).
      apply map_Forall_insert_2; [|exact Hinv].
      assert (0 < Job.max_retries job) as Hpos.
      { destruct mr as [m|]; simpl in Hpre; [now rewrite Hmr|].
        destruct Hmr as (w0 & Hcfg & Hget). apply Hpre.
        now apply (get_int_config _ _ w0 w). }
      split; [lia|]. rewrite Hst. discriminate.
    + destruct He as (-> & _). exact Hinv.
  - destruct (claim_job_effect w wid)
      as [-> | (key & job & claimed & now & Hjob & Hcl & ->)]; [exact Hinv|].
    apply map_Forall_insert_2; [|exact Hinv].
    destruct (Hinv _ _ Hjob) as [Hrange _].
    destruct Hcl as (_ & _ & _ & Hst & _ & _ & Hat & Hmr & _).
    split; [lia|]. rewrite Hst. discriminate.
  - destruct (mark_success_effect w jid ec out err d)
      as [-> | (job & job' & Hjob & -> & Hst & _ & _ & Hat & Hmr)];
      [exact Hinv|].
    apply map_Forall_insert_2; [|exact Hinv].
    destruct (Hinv _ _ Hjob) as [Hrange _].
    split; [lia|]. rewrite Hst. discriminate.
  - destruct (mark_failure_effect w jid ec out err d)
      as [-> | (job & job' & now & Hjob & -> & Hrec & Hst)]; [exact Hinv|].
    apply map_Forall_insert_2; [|exact Hinv].
    destruct (Hinv _ _ Hjob) as [Hrange _].
    simpl in Hpre. specialize (Hpre _ Hjob).
    destruct Hrec as (Hat & _ & _ & _ & _ & _ & _ & _ & Hmr & _).
    split; [lia|]. intros Hdead.
    destruct Hst as [[_ Hge] | [Hfailed _]]; [lia|].
    rewrite Hfailed in Hdead. discriminate.
  - destruct (retry_dlq_job_effect w jid)
      as [-> | (job & job' & Hjob & -> & Hst & Hat & Hmr & _)]; [exact Hinv|].
    apply map_Forall_insert_2; [|exact Hinv].
    destruct (Hinv _ _ Hjob) as [Hrange _].
    split; [lia|]. rewrite Hst. discriminate.
Qed.

(** *** Stored output *)


Lemma truncate_output_length s :
  (Z.to_nat 8192 < length s)%nat ->
  exists s', truncate_output s = Some s' /\ length s' = Z.to_nat 8192.
Proof.
  intros Hlen. destruct s as [|c s]; [simpl in Hlen; lia|].
  eexists. split; [reflexivity|]. rewrite length_take. lia.
Qed.

Lemma byte_size_cons c s :
  byte_size (c :: s) = (length (utf8_encode_char c) + byte_size s)%nat.
Proof. unfold byte_size, utf8_encode. simpl. now rewrite length_app. Qed.

(** On ASCII output code points and bytes coincide. *)
Lemma byte_size_ascii s :
  Forall (fun c => (c < 128)%N) s -> byte_size s = length s.
Proof.
  induction 1 as [|c s Hc _ IH]; [reflexivity|].
  rewrite byte_size_cons, IH. unfold utf8_encode_char.
  apply N.ltb_lt in Hc. now rewrite Hc.
Qed.

(** A two-byte code point repeated [n] times takes [2 * n] bytes. *)
Lemma byte_size_repeat_two_bytes c n :
  (128 <= c < 2048)%N -> byte_size (replicate n c) = (2 * n)%nat.
Proof.
  intros [Hlo Hhi]. induction n as [|n IH]; [reflexivity|].
  simpl replicate. rewrite byte_size_cons, IH. unfold utf8_encode_char.
  apply N.ltb_ge in Hlo. apply N.ltb_lt in Hhi. rewrite Hlo, Hhi. simpl. lia.
Qed.

Lemma mark_failure_present w job_id job ec out err d :
  jobs w !! job_id = Some job ->
  match mark_failure job_id ec out err d w with
  | Ok _ w' =>
      exists job' now,
        jobs w' = <[job_id := job']> (jobs w) /\
        failure_recorded ec out err d now job job' /\
        (Job.state job' = "dead" \/ Job.state job' = "failed")
  | Raise _ w' => same_tables w w'
  end.
Proof.
  intros Hjob.
  destruct (Z.le_gt_cases (Job.max_retries job) (Job.attempts job + 1))
    as [Hge | Hlt].
  - destruct (mark_failure_dead w job_id job ec out err d Hjob Hge)
      as (job' & -> & Hrec & Hst & _).
    exists job', (clock w (ticks w)). auto.
  - pose proof (mark_failure_retry w job_id job ec out err d Hjob Hlt) as Hr.
    destruct (mark_failure job_id ec out err d w) as [u w' | e w'];
      [|exact Hr].
    destruct Hr as (mb & delay & td & job' & _ & _ & _ & -> & Hrec & Hst & _).
    exists job', (clock w (ticks w)). auto.
Qed.


(** *** The exit code of a completed job *)

Lemma effective_timeout_cases job w :
  match effective_timeout job w with
  | Ok _ w' => w' = w
  | Raise _ w' => w' = w
  end.
Proof.
  unfold effective_timeout, bind.
  destruct (Job.timeout_s job) as [t|]; [destruct (t =? 0); [|reflexivity]|];
    destruct (get_int_cases "job_timeout_s" 0 w) as [[g ->] | ->];
    reflexivity.
Qed.


(** *** Checking the invariants by evaluation *)

Lemma lock_inv_jobb_sound job : lock_inv_jobb job = true -> lock_inv_job job.
Proof.
  unfold lock_inv_jobb, lock_inv_job.
  rewrite andb_true_iff, eqb_true_iff. intros [Hproc Hrest]. split.
  - rewrite <- String.eqb_eq, Hproc.
    destruct (Job.locked_by job), (Job.locked_at job);
      split; try discriminate; try (intros [? ?]; congruence); auto.
  - intros Hst.
    assert (Hany : String.eqb (Job.state job) "pending"
                   || String.eqb (Job.state job) "failed"
                   || String.eqb (Job.state job) "completed"
                   || String.eqb (Job.state job) "dead" = true).
    { rewrite !orb_true_iff, !String.eqb_eq. tauto. }
    rewrite Hany in Hrest.
    destruct (Job.locked_by job), (Job.locked_at job);
      try discriminate. now split.
Qed.

Lemma attempts_inv_jobb_sound job :
  attempts_inv_jobb job = true -> attempts_inv_job job.
Proof.
  unfold attempts_inv_jobb, attempts_inv_job.
  rewrite !andb_true_iff, orb_true_iff, !Z.leb_le, Z.eqb_eq, negb_true_iff.
  intros [[Hlo Hhi] Hdead]. split; [lia|].
  intros Hst. destruct Hdead as [Hne | Heq]; [|exact Heq].
  apply String.eqb_neq in Hne. contradiction.
Qed.

Lemma all_jobs_sound (check : Job.t -> bool) (P : Job.t -> Prop) w :
  (forall job, check job = true -> P job) ->
  all_jobs check w = true ->
  map_Forall (fun _ job => P job) (jobs w).
Proof.
  intros Hsound Hall key job Hjob. apply Hsound.
  unfold all_jobs in Hall. rewrite forallb_forall in Hall.
  apply (Hall (key, job)).
  now apply list_elem_of_In, elem_of_map_to_list.
Qed.

(** *** What a claim leaves alone *)

Lemma claim_job_inv w worker_id :
  match claim_job worker_id w with
  | Ok (Some claimed) w' =>
      exists lock_timeout_s key old,
        get_int "lock_timeout_s" 300 w = Ok lock_timeout_s w /\
        jobs w !! key = Some old /\
        eligible (clock w (ticks w)) lock_timeout_s old = true /\
        claimed_from worker_id (clock w (ticks w)) old claimed /\
        w' = set_jobs (<[key := claimed]> (jobs w)) (tick w)
  | Ok None w' => w' = tick w
  | Raise _ w' => w' = w
  end.
Proof.
  destruct (get_int_cases "lock_timeout_s" 300 w) as [[lt Hcfg] | Hcfg].
  - rewrite (claim_job_run _ _ _ Hcfg).
    destruct (select_first _) as [[key job]|] eqn:Hsel; [|reflexivity].
    exists lt, key, job. split; [exact Hcfg|].
    pose proof (selected_row_present _ _ _ _ _ Hsel) as Hrow.
    apply select_first_least in Hsel as [Hin _].
    apply filter_In in Hin as [_ Hel].
    split; [exact Hrow|]. split; [exact Hel|].
    split; [apply claimed_from_setters | reflexivity].
  - unfold claim_job, bind. now rewrite Hcfg.
Qed.

Lemma eligible_state now lock_timeout_s job :
  eligible now lock_timeout_s job = true ->
  Job.state job = "pending" \/ Job.state job = "failed".
Proof. intros Hel. apply eligible_iff in Hel. apply Hel. Qed.

(** X1. [claim_job] changes no row whose state is neither [pending] nor
    [failed]: a [dead] or [completed] job is never claimed, and a job
    left in [processing] is not taken over, however old its
    [locked_at]. *)
Theorem claim_job_skips_other_states w worker_id key job :
  jobs w !! key = Some job ->
  Job.state job <> "pending" ->
  Job.state job <> "failed" ->
  jobs (world_of (claim_job worker_id w)) !! key = Some job.
Proof.
  intros Hrow Hnp Hnf. pose proof (claim_job_inv w worker_id) as Hinv.
  destruct (claim_job worker_id w) as [[claimed|] w' | e w']; simpl.
  - destruct Hinv as (lt & key' & old & _ & Hold & Hel & _ & ->). simpl.
    destruct (decide (key' = key)) as [-> | Hne].
    + rewrite Hrow in Hold. injection Hold as <-.
      apply eligible_state in Hel. tauto.
    + now rewrite lookup_insert_ne.
  - now subst w'.
  - now subst w'.
Qed.

(** X2. Two claims in a row never return the same job: the row the first
    claim took is still held by its worker after the second. *)
Theorem consecutive_claims_differ w worker_1 worker_2 job_1 job_2 w1 w2 :
  wf_jobs w ->
  claim_job worker_1 w = Ok (Some job_1) w1 ->
  claim_job worker_2 w1 = Ok (Some job_2) w2 ->
  Job.id job_1 <> Job.id job_2 /\
  jobs w2 !! Job.id job_1 = Some job_1.
Proof.
  intros Hwf H1 H2.
  pose proof (claim_job_inv w worker_1) as I1. rewrite H1 in I1.
  destruct I1 as (lt1 & k1 & old1 & _ & Hold1 & _ & Hcl1 & Hw1).
  pose proof (claim_job_inv w1 worker_2) as I2. rewrite H2 in I2. subst w1.
  destruct I2 as (lt2 & k2 & old2 & _ & Hold2 & Hel2 & Hcl2 & ->).
  simpl in *.
  assert (Hid1 : Job.id job_1 = k1).
  { destruct Hcl1 as (_ & _ & _ & _ & -> & _). exact (Hwf _ _ Hold1). }
  assert (Hne : k1 <> k2).
  { intros <-. rewrite lookup_insert_eq in Hold2. injection Hold2 as <-.
    apply eligible_state in Hel2.
    destruct Hcl1 as (_ & _ & _ & Hst & _). rewrite Hst in Hel2.
    destruct Hel2; discriminate. }
  assert (Hid2 : Job.id job_2 = k2).
  { destruct Hcl2 as (_ & _ & _ & _ & -> & _).
    rewrite lookup_insert_ne in Hold2 by exact Hne. exact (Hwf _ _ Hold2). }
  split; [congruence|].
  rewrite Hid1, lookup_insert_ne by congruence. apply lookup_insert_eq.
Qed.



(** *** What a call keeps of a row *)

Lemma claimed_identity worker_id now job claimed :
  claimed_from worker_id now job claimed ->
  same_identity job claimed /\ Job.attempts claimed = Job.attempts job.
Proof.
  intros (_ & _ & _ & _ & Hid & Hcmd & Hat & Hmr & Hbb & Hpr & _ & Hto & Hcr
          & _).
  unfold same_identity. auto 10.
Qed.

Lemma claim_job_written w worker_id :
  jobs (world_of (claim_job worker_id w)) = jobs w \/
  exists key job job',
    jobs w !! key = Some job /\
    jobs (world_of (claim_job worker_id w)) = <[key := job']> (jobs w) /\
    same_identity job job' /\
    Job.attempts job' = Job.attempts job.
Proof.
  pose proof (claim_job_inv w worker_id) as Hinv.
  destruct (claim_job worker_id w) as [[claimed|] w' | e w']; simpl.
  - destruct Hinv as (lt & key & old & _ & Hold & _ & Hcl & ->).
    right. exists key, old, claimed. split; [exact Hold|].
    split; [reflexivity|]. eapply claimed_identity; exact Hcl.
  - left. now subst w'.
  - left. now subst w'.
Qed.

Lemma mark_success_written w job_id ec out err d :
  jobs (world_of (mark_success job_id ec out err d w)) = jobs w \/
  exists job job',
    jobs w !! job_id = Some job /\
    jobs (world_of (mark_success job_id ec out err d w))
    = <[job_id := job']> (jobs w) /\
    same_identity job job' /\
    Job.attempts job' = Job.attempts job.
Proof.
  unfold mark_success, bind, session_get_job.
  destruct (jobs w !! job_id) as [job|] eqn:Hjob; [|now left].
  right. exists job. eexists. split; [reflexivity|].
  split; [reflexivity|]. unfold same_identity. simpl. auto 10.
Qed.

Lemma mark_failure_written w job_id ec out err d :
  jobs (world_of (mark_failure job_id ec out err d w)) = jobs w \/
  exists job job',
    jobs w !! job_id = Some job /\
    jobs (world_of (mark_failure job_id ec out err d w))
    = <[job_id := job']> (jobs w) /\
    same_identity job job' /\
    Job.attempts job' = Job.attempts job + 1.
Proof.
  unfold mark_failure, bind, session_get_job.
  destruct (jobs w !! job_id) as [job|] eqn:Hjob; [|now left].
  unfold utcnow. simpl.
  destruct (Job.max_retries job <=? Job.attempts job + 1).
  - right. exists job. eexists. split; [reflexivity|].
    split; [reflexivity|]. unfold same_identity. simpl. auto 10.
  - destruct (get_int_cases "max_backoff_s" 3600 (tick w)) as [[mb Hmb] | Hmb];
      rewrite Hmb; [|now left].
    simpl.
    pose proof (get_next_run_at_cases (Job.attempts job + 1)
                  (Job.backoff_base job) mb (tick w)) as Hnext.
    destruct (get_next_run_at (Job.attempts job + 1) (Job.backoff_base job) mb
                              (tick w)) as [next w1 | e w1].
    + destruct Hnext as (delay & td & _ & _ & _ & ->). simpl.
      right. exists job. eexists. split; [reflexivity|].
      split; [reflexivity|]. unfold same_identity. simpl. auto 10.
    + left. apply Hnext.
Qed.

Lemma retry_dlq_job_written w job_id :
  jobs (world_of (retry_dlq_job job_id w)) = jobs w \/
  exists job job',
    jobs w !! job_id = Some job /\
    jobs (world_of (retry_dlq_job job_id w)) = <[job_id := job']> (jobs w) /\
    same_identity job job' /\
    Job.attempts job' = 0.
Proof.
  unfold retry_dlq_job, bind, session_get_job.
  destruct (jobs w !! job_id) as [job|] eqn:Hjob; [|now left].
  destruct (negb (String.eqb (Job.state job) "dead")); [now left|].
  right. exists job. eexists. split; [reflexivity|].
  split; [reflexivity|]. unfold same_identity. simpl. auto 10.
Qed.

Lemma same_identity_refl job : same_identity job job.
Proof. unfold same_identity. auto 10. Qed.

Lemma lookup_written (js : gmap string Job.t) key key' job job' :
  js !! key = Some job ->
  (<[key' := job']> js) !! key
  = Some (if decide (key' = key) then job' else job).
Proof.
  intros Hrow. destruct (decide (key' = key)) as [-> | Hne].
  - apply lookup_insert_eq.
  - now rewrite lookup_insert_ne.
Qed.

(** X4. No repository call deletes a job or rewrites what was fixed at
    creation: a row present before any of the five calls is present
    after it with the same id, command, max_retries, backoff_base,
    priority, timeout_s and created_at. *)
Theorem rows_keep_identity c w key job :
  jobs w !! key = Some job ->
  exists job',
    jobs (perform c w) !! key = Some job' /\ same_identity job job'.
Proof.
  intros Hrow.
  assert (Hstep :
    jobs (perform c w) = jobs w \/
    exists key' job',
      jobs (perform c w) = <[key' := job']> (jobs w) /\
      (key' = key -> same_identity job job')).
  { destruct c as [cmd jid prio ra to mr bb | wid | jid ec out err d
                  | jid ec out err d | jid]; simpl.
    - pose proof (create_job_effect w cmd jid prio ra to mr bb) as He.
      destruct (create_job cmd jid prio ra to mr bb w) as [new w' | e w'];
        simpl.
      + destruct He as (Hfree & -> & _). right. exists (Job.id new), new.
        split; [reflexivity|]. intros Heq. rewrite Heq in Hfree. congruence.
      + left. apply He.
    - destruct (claim_job_written w wid)
        as [-> | (k & old & new & Hold & -> & Hid & _)]; [now left|].
      right. exists k, new. split; [reflexivity|]. intros ->.
      rewrite Hrow in Hold. now injection Hold as <-.
    - destruct (mark_success_written w jid ec out err d)
        as [-> | (old & new & Hold & -> & Hid & _)]; [now left|].
      right. exists jid, new. split; [reflexivity|]. intros ->.
      rewrite Hrow in Hold. now injection Hold as <-.
    - destruct (mark_failure_written w jid ec out err d)
        as [-> | (old & new & Hold & -> & Hid & _)]; [now left|].
      right. exists jid, new. split; [reflexivity|]. intros ->.
      rewrite Hrow in Hold. now injection Hold as <-.
    - destruct (retry_dlq_job_written w jid)
        as [-> | (old & new & Hold & -> & Hid & _)]; [now left|].
      right. exists jid, new. split; [reflexivity|]. intros ->.
      rewrite Hrow in Hold. now injection Hold as <-. }
  destruct Hstep as [-> | (key' & job' & -> & Hid)].
  - exists job. split; [exact Hrow | apply same_identity_refl].
  - rewrite (lookup_written _ _ _ _ _ Hrow). eexists. split; [reflexivity|].
    destruct (decide (key' = key)); [auto | apply same_identity_refl].
Qed.

(** X5. [attempts] moves in two ways only: [mark_failure] adds 1 to the
    job it is called for, and [retry_dlq_job] sets the job it is called
    for to 0. Every other call, and every call for another id, leaves
    [attempts] as it was; in particular [mark_success] and [claim_job]
    never count an attempt. *)
Theorem attempts_evolution c w key job job' :
  jobs w !! key = Some job ->
  jobs (perform c w) !! key = Some job' ->
  attempts_step c key job job'.
Proof.
  intros Hrow Hrow'.
  destruct c as [cmd jid prio ra to mr bb | wid | jid ec out err d
                | jid ec out err d | jid]; simpl in *.
  - pose proof (create_job_effect w cmd jid prio ra to mr bb) as He.
    destruct (create_job cmd jid prio ra to mr bb w) as [new w' | e w'];
      simpl in *.
    + destruct He as (Hfree & Hj & _). rewrite Hj in Hrow'.
      rewrite lookup_insert_ne in Hrow' by (intros Heq; congruence).
      congruence.
    + destruct He as (Hj & _). rewrite Hj in Hrow'. congruence.
  - destruct (claim_job_written w wid)
      as [Hj | (k & old & new & Hold & Hj & _ & Hat)];
      rewrite Hj in Hrow'; [congruence|].
    rewrite (lookup_written _ _ _ _ _ Hrow) in Hrow'.
    destruct (decide (k = key)) as [-> | _]; congruence.
  - destruct (mark_success_written w jid ec out err d)
      as [Hj | (old & new & Hold & Hj & _ & Hat)];
      rewrite Hj in Hrow'; [congruence|].
    rewrite (lookup_written _ _ _ _ _ Hrow) in Hrow'.
    destruct (decide (jid = key)) as [-> | _]; congruence.
  - destruct (mark_failure_written w jid ec out err d)
      as [Hj | (old & new & Hold & Hj & _ & Hat)]; rewrite Hj in Hrow'.
    + destruct (decide (jid = key)); [left|]; congruence.
    + rewrite (lookup_written _ _ _ _ _ Hrow) in Hrow'.
      destruct (decide (jid = key)) as [-> | _]; [right|]; congruence.
  - destruct (retry_dlq_job_written w jid)
      as [Hj | (old & new & Hold & Hj & _ & Hat)]; rewrite Hj in Hrow'.
    + destruct (decide (jid = key)); [left|]; congruence.
    + rewrite (lookup_written _ _ _ _ _ Hrow) in Hrow'.
      destruct (decide (jid = key)) as [-> | _]; [right|]; congruence.
Qed.

(** *** Job calls and the other tables *)

Lemma registry_kept_readonly {A} (m : M A) : readonly m -> registry_kept m.
Proof. intros Hm w. destruct (Hm w) as (_ & Hw & Hc). now split. Qed.

Lemma registry_kept_bind {A B} (m : M A) (k : A -> M B) :
  registry_kept m -> (forall a, registry_kept (k a)) ->
  registry_kept (bind m k).
Proof.
  intros Hm Hk w. unfold bind. specialize (Hm w).
  destruct (m w) as [a w' | e w']; simpl in *; [|exact Hm].
  destruct (Hk a w') as [Hw Hc]. destruct Hm as [Hw' Hc'].
  split; congruence.
Qed.

Lemma registry_kept_ret {A} (a : A) : registry_kept (ret a).
Proof. now intros w. Qed.

Lemma registry_kept_commit_job job_id job :
  registry_kept (session_commit_job job_id job).
Proof. now intros w. Qed.

Lemma registry_kept_add_job job : registry_kept (session_add_job job).
Proof.
  intros w. unfold session_add_job. now destruct (jobs w !! Job.id job).
Qed.

Lemma readonly_get_next_run_at attempts base max_backoff_s :
  readonly (get_next_run_at attempts base max_backoff_s).
Proof.
  intros w.
  pose proof (get_next_run_at_cases attempts base max_backoff_s w) as Hc.
  destruct (get_next_run_at attempts base max_backoff_s w) as [t w' | e w'];
    simpl; [|exact Hc].
  destruct Hc as (_ & _ & _ & _ & _ & ->). repeat split.
Qed.

Lemma registry_kept_create_job command job_id priority run_at timeout_s
    max_retries backoff_base :
  registry_kept (create_job command job_id priority run_at timeout_s
                            max_retries backoff_base).
Proof.
  unfold create_job. apply registry_kept_bind.
  { apply registry_kept_readonly.
    destruct job_id; [apply readonly_ret | apply readonly_uuid4]. }
  intros jid. apply registry_kept_bind.
  { apply registry_kept_readonly, readonly_session_get_job. }
  intros [existing|]; [apply registry_kept_readonly, readonly_raise|].
  apply registry_kept_bind; [apply registry_kept_readonly, readonly_snapshot|].
  intros snap. apply registry_kept_bind.
  { apply registry_kept_readonly.
    destruct run_at as [dt|]; [|apply readonly_utcnow].
    destruct (run_at_truthy (Some dt));
      [apply readonly_ensure_utc | apply readonly_utcnow]. }
  intros t. apply registry_kept_bind;
    [apply registry_kept_readonly, readonly_utcnow|].
  intros created. apply registry_kept_bind;
    [apply registry_kept_readonly, readonly_utcnow|].
  intros updated. apply registry_kept_bind; [apply registry_kept_add_job|].
  intros _. apply registry_kept_ret.
Qed.

Lemma registry_kept_claim_job worker_id : registry_kept (claim_job worker_id).
Proof.
  intros w. pose proof (claim_job_inv w worker_id) as Hinv.
  destruct (claim_job worker_id w) as [[claimed|] w' | e w']; simpl.
  - destruct Hinv as (lt & key & old & _ & _ & _ & _ & ->). now split.
  - now subst w'.
  - now subst w'.
Qed.

Lemma registry_kept_mark_success job_id ec out err d :
  registry_kept (mark_success job_id ec out err d).
Proof.
  intros w. unfold mark_success, bind, session_get_job.
  now destruct (jobs w !! job_id).
Qed.

Lemma registry_kept_mark_failure job_id ec out err d :
  registry_kept (mark_failure job_id ec out err d).
Proof.
  unfold mark_failure. apply registry_kept_bind.
  { apply registry_kept_readonly, readonly_session_get_job. }
  intros [job|]; [|apply registry_kept_ret].
  apply registry_kept_bind; [apply registry_kept_readonly, readonly_utcnow|].
  intros now. simpl.
  destruct (Job.max_retries job <=? Job.attempts job + 1);
    [apply registry_kept_commit_job|].
  apply registry_kept_bind; [apply registry_kept_readonly, readonly_get_int|].
  intros mb. apply registry_kept_bind.
  { apply registry_kept_readonly, readonly_get_next_run_at. }
  intros next. apply registry_kept_commit_job.
Qed.

Lemma registry_kept_retry_dlq_job job_id :
  registry_kept (retry_dlq_job job_id).
Proof.
  intros w. unfold retry_dlq_job, bind, session_get_job.
  destruct (jobs w !! job_id) as [job|]; [|now split].
  now destruct (negb (String.eqb (Job.state job) "dead")).
Qed.

(** X6. The five job calls write to the jobs table only: the worker
    registry and the config table are the same after the call as before,
    whether it returns or raises. *)
Theorem job_calls_keep_registry c w :
  workers (perform c w) = workers w /\ config (perform c w) = config w.
Proof.
  destruct c as [cmd jid prio ra to mr bb | wid | jid ec out err d
                | jid ec out err d | jid]; simpl.
  - apply registry_kept_create_job.
  - apply registry_kept_claim_job.
  - apply registry_kept_mark_success.
  - apply registry_kept_mark_failure.
  - apply registry_kept_retry_dlq_job.
Qed.

(** *** Creating a job *)

(** X7. [create_job] with an id that is already stored raises
    [ValueError] before it reads the config or the clock, and the world
    is exactly as before. *)
Theorem create_job_duplicate_id w command job_id priority run_at timeout_s
    max_retries backoff_base existing :
  jobs w !! job_id = Some existing ->
  create_job command (Some job_id) priority run_at timeout_s max_retries
             backoff_base w
  = Raise ValueError w.
Proof.
  intros Hrow. unfold create_job, bind, ret, session_get_job.
  now rewrite Hrow.
Qed.

(** X8. [create_job] with a fresh id, a readable config and no [run_at]
    returns. The stored row is [pending] with [attempts = 0], no lock and
    no outcome; an explicit [max_retries] or [backoff_base] wins over the
    config snapshot; [run_at], [created_at] and [updated_at] are three
    successive clock readings; and [get_job] returns the row. *)
Theorem create_job_stores_pending w command job_id priority timeout_s
    max_retries backoff_base snap :
  jobs w !! job_id = None ->
  snapshot w = Ok snap w ->
  exists job w',
    create_job command (Some job_id) priority None timeout_s max_retries
               backoff_base w = Ok job w' /\
    w' = set_jobs (<[job_id := job]> (jobs w)) (tick (tick (tick w))) /\
    get_job job_id w' = Ok (Some job) w' /\
    Job.id job = job_id /\
    Job.command job = command /\
    Job.state job = "pending" /\
    Job.attempts job = 0 /\
    Job.max_retries job = default (snap_max_retries snap) max_retries /\
    Job.backoff_base job = default (snap_backoff_base snap) backoff_base /\
    Job.priority job = priority /\
    Job.timeout_s job = timeout_s /\
    Job.run_at job = clock w (ticks w) /\
    Job.created_at job = clock w (S (ticks w)) /\
    Job.updated_at job = clock w (S (S (ticks w))) /\
    Job.locked_by job = None /\
    Job.locked_at job = None /\
    Job.last_exit_code job = None /\
    Job.stdout job = None /\
    Job.stderr job = None /\
    Job.duration_ms job = None.
Proof.
  intros Hfree Hsnap. unfold create_job, bind, ret, session_get_job.
  rewrite Hfree, Hsnap. unfold utcnow, session_add_job. simpl.
  rewrite Hfree. eexists _, _. split; [reflexivity|].
  split; [reflexivity|]. split.
  { unfold get_job, session_get_job. simpl. now rewrite lookup_insert_eq. }
  simpl. destruct max_retries, backoff_base; repeat split.
Qed.

(** X9. The [run_at] argument of [create_job]: a datetime is stored as
    given; the empty string is falsy and is treated exactly like a
    missing argument; a non-empty string that [fromisoformat] rejects
    makes the call raise [ValueError] with nothing stored. *)
Theorem create_job_run_at w command job_id priority timeout_s max_retries
    backoff_base snap :
  jobs w !! job_id = None ->
  snapshot w = Ok snap w ->
  (forall dt, exists job w',
      create_job command (Some job_id) priority (Some (RunAtDatetime dt))
                 timeout_s max_retries backoff_base w = Ok job w' /\
      jobs w' !! job_id = Some job /\
      Job.run_at job = dt) /\
  create_job command (Some job_id) priority (Some (RunAtStr "")) timeout_s
             max_retries backoff_base w
  = create_job command (Some job_id) priority None timeout_s max_retries
               backoff_base w /\
  (forall str,
      str <> ""%string -> endswith_Z str = false ->
      fromisoformat str = None ->
      create_job command (Some job_id) priority (Some (RunAtStr str))
                 timeout_s max_retries backoff_base w
      = Raise ValueError w).
Proof.
  intros Hfree Hsnap. split; [|split].
  - intros dt. unfold create_job, bind, ret, session_get_job.
    rewrite Hfree, Hsnap. unfold utcnow, session_add_job. simpl.
    rewrite Hfree. eexists _, _. split; [reflexivity|]. simpl.
    split; [apply lookup_insert_eq | reflexivity].
  - reflexivity.
  - intros str Hne Hz Hparse. unfold create_job, bind, ret, session_get_job.
    rewrite Hfree, Hsnap. simpl.
    apply String.eqb_neq in Hne. rewrite Hne. simpl.
    unfold ensure_utc. rewrite Hz, Hparse. reflexivity.
Qed.

(** *** Time strings *)

Lemma length_app_Z s : String.length (s ++ "Z") = S (String.length s).
Proof. induction s as [|c s IH]; simpl; [reflexivity | now rewrite IH]. Qed.

Lemma get_last s (c : ascii) :
  String.get (String.length s) (s ++ String c "") = Some c.
Proof. induction s as [|a s IH]; simpl; [reflexivity | exact IH]. Qed.

Lemma substring_app s t :
  String.substring 0 (String.length s) (s ++ t) = s.
Proof.
  induction s as [|a s IH]; simpl.
  - now destruct t.
  - now rewrite IH.
Qed.

Lemma endswith_Z_app s (c : ascii) :
  endswith_Z (s ++ String c "") = bool_decide (c = "Z"%char).
Proof.
  unfold endswith_Z.
  assert (Hlen : String.length (s ++ String c "") = S (String.length s)).
  { induction s as [|a s IH]; simpl; [reflexivity | now rewrite IH]. }
  rewrite Hlen, get_last. reflexivity.
Qed.

Lemma string_app_assoc (s t u : string) :
  ((s ++ t) ++ u = s ++ (t ++ u))%string.
Proof.
  induction s as [|a s IH]; [reflexivity|].
  change (String a ((s ++ t) ++ u) = String a (s ++ (t ++ u)))%string.
  now rewrite IH.
Qed.

(** X10. [ensure_utc] reads a trailing [Z] as the offset [+00:00]: the
    strings [s + "Z"] and [s + "+00:00"] give the same instant or the
    same error. *)
Theorem ensure_utc_trailing_Z s :
  ensure_utc (RunAtStr (s ++ "Z")) = ensure_utc (RunAtStr (s ++ "+00:00")).
Proof.
  unfold ensure_utc.
  rewrite (endswith_Z_app s "Z").
  replace (s ++ "+00:00")%string with ((s ++ "+00:0") ++ "0")%string
    by apply string_app_assoc.
  rewrite (endswith_Z_app (s ++ "+00:0") "0"). simpl.
  rewrite length_app_Z. simpl. rewrite Nat.sub_0_r, substring_app.
  now rewrite string_app_assoc.
Qed.


(** *** Calls in sequence *)




(** X13. [retry_dlq_job] works once: after it has returned [True] for a
    job, a second call for the same id returns [False] and changes
    nothing. *)
Theorem retry_dlq_job_once w job_id w1 :
  retry_dlq_job job_id w = Ok true w1 ->
  retry_dlq_job job_id w1 = Ok false w1.
Proof.
  unfold retry_dlq_job at 1. unfold bind, session_get_job.
  destruct (jobs w !! job_id) as [job|]; [|discriminate].
  destruct (negb (String.eqb (Job.state job) "dead")); [discriminate|].
  simpl. intros [= <-].
  unfold retry_dlq_job, bind, session_get_job. simpl.
  now rewrite lookup_insert_eq.
Qed.

(** *** One job through a worker *)

Lemma _process_job_cases w job row w' :
  jobs w !! Job.id job = Some row ->
  _process_job job w = Ok tt w' ->
  exists row',
    jobs w' = <[Job.id job := row']> (jobs w) /\
    Job.locked_by row' = None /\
    Job.locked_at row' = None /\
    (Job.state row' = "completed" /\
     Job.attempts row' = Job.attempts row /\
     Job.last_exit_code row' = Some 0 \/
     (Job.state row' = "failed" \/ Job.state row' = "dead") /\
     Job.attempts row' = Job.attempts row + 1).
Proof.
  intros Hrow Hrun.
  assert (Hfail : forall w0 ec out err d,
             jobs w0 = jobs w ->
             mark_failure (Job.id job) ec out err d w0 = Ok tt w' ->
             exists row',
               jobs w' = <[Job.id job := row']> (jobs w) /\
               Job.locked_by row' = None /\
               Job.locked_at row' = None /\
               (Job.state row' = "completed" /\
                Job.attempts row' = Job.attempts row /\
                Job.last_exit_code row' = Some 0 \/
                (Job.state row' = "failed" \/ Job.state row' = "dead") /\
                Job.attempts row' = Job.attempts row + 1)).
  { intros w0 ec out err d Hsame Hmf.
    pose proof (mark_failure_present w0 (Job.id job) row ec out err d) as Hp.
    rewrite Hsame in Hp. specialize (Hp Hrow). rewrite Hmf in Hp.
    destruct Hp as (row' & now & Hjobs & Hrec & Hst).
    destruct Hrec as (Hat & _ & _ & _ & _ & _ & Hlb & Hla & _).
    exists row'. split; [exact Hjobs|]. split; [exact Hlb|].
    split; [exact Hla|]. right. split; [tauto | exact Hat]. }
  unfold _process_job, try_except, bind in Hrun.
  pose proof (effective_timeout_cases job w) as Hto.
  destruct (effective_timeout job w) as [to w1 | e w1]; subst w1.
  - unfold record_result in Hrun.
    destruct (Z.eqb_spec (exit_code (execute_job (Job.command job) to)) 0)
      as [Hzero | Hnz].
    + destruct (mark_success_present w (Job.id job) row
                  (exit_code (execute_job (Job.command job) to))
                  (res_stdout (execute_job (Job.command job) to))
                  (res_stderr (execute_job (Job.command job) to))
                  (res_duration_ms (execute_job (Job.command job) to)) Hrow)
        as (row' & Hms & Hst & Hec & _ & _ & _ & Hlb & Hla & _ & Hat & _).
      rewrite Hms in Hrun. injection Hrun as <-.
      exists row'. split; [reflexivity|]. split; [exact Hlb|].
      split; [exact Hla|]. left. rewrite Hec, Hzero. auto.
    + pose proof (mark_failure_present w (Job.id job) row
                    (exit_code (execute_job (Job.command job) to))
                    (res_stdout (execute_job (Job.command job) to))
                    (res_stderr (execute_job (Job.command job) to))
                    (res_duration_ms (execute_job (Job.command job) to))
                    Hrow) as Hp.
      destruct (mark_failure (Job.id job) _ _ _ _ w) as [u w1 | e w1] eqn:Hmf.
      * destruct u. injection Hrun as ->.
        eapply Hfail; [reflexivity | exact Hmf].
      * destruct Hp as (Hj & _). eapply Hfail; [exact Hj | exact Hrun].
  - eapply Hfail; [reflexivity | exact Hrun].
Qed.

(** X14. A worker does not keep its lock: when [claim_job] has returned
    a job and [_process_job] returns for it, the job's row has both lock
    columns cleared and is either [completed] with exit code 0 and the
    same [attempts], or [failed] or [dead] with [attempts] one higher. *)
Theorem processed_job_is_released w worker_id job w1 w2 :
  wf_jobs w ->
  claim_job worker_id w = Ok (Some job) w1 ->
  _process_job job w1 = Ok tt w2 ->
  exists row,
    jobs w2 !! Job.id job = Some row /\
    Job.locked_by row = None /\
    Job.locked_at row = None /\
    (Job.state row = "completed" /\
     Job.attempts row = Job.attempts job /\
     Job.last_exit_code row = Some 0 \/
     (Job.state row = "failed" \/ Job.state row = "dead") /\
     Job.attempts row = Job.attempts job + 1).
Proof.
  intros Hwf Hclaim Hproc.
  pose proof (claim_job_inv w worker_id) as Hinv. rewrite Hclaim in Hinv.
  destruct Hinv as (lt & key & old & _ & Hold & _ & Hcl & ->).
  assert (Hid : Job.id job = key).
  { destruct Hcl as (_ & _ & _ & _ & -> & _). exact (Hwf _ _ Hold). }
  assert (Hrow : jobs (set_jobs (<[key := job]> (jobs w)) (tick w))
                 !! Job.id job = Some job).
  { rewrite Hid. apply lookup_insert_eq. }
  destruct (_process_job_cases _ job job w2 Hrow Hproc)
    as (row & Hjobs & Hlb & Hla & Hst).
  exists row. rewrite Hjobs, lookup_insert_eq. auto.
Qed.

(** *** The timeout a job runs under *)

(** X15. The timeout that reaches the subprocess, through
    [_process_job] and [execute_job]: a positive [timeout_s] of the job
    is used as it is, without reading the config; a missing or zero one
    falls back to a positive [job_timeout_s] and to no timeout
    otherwise; a negative one means no timeout and does not fall back.
    It is never zero or negative. *)
Theorem subprocess_timeout w job global :
  get_int "job_timeout_s" 0 w = Ok global w ->
  exists passed,
    effective_timeout job w = Ok passed w /\
    (forall n, Job.timeout_s job = Some n -> 0 < n ->
               actual_timeout passed = Some n) /\
    (Job.timeout_s job = None \/ Job.timeout_s job = Some 0 ->
     actual_timeout passed = if 0 <? global then Some global else None) /\
    (forall n, Job.timeout_s job = Some n -> n < 0 ->
               actual_timeout passed = None) /\
    (forall t, actual_timeout passed = Some t -> 0 < t).
Proof.
  intros Hcfg. unfold effective_timeout, bind.
  assert (Hpos : forall t, actual_timeout
                             (if 0 <? global then Some global else None)
                           = Some t -> 0 < t).
  { intros t. destruct (Z.ltb_spec 0 global) as [Hg|Hg]; simpl; [|discriminate].
    destruct (Z.eqb_spec global 0); [lia|].
    destruct (Z.ltb_spec 0 global); simpl; [|discriminate].
    intros [= <-]. lia. }
  assert (Hglobal : actual_timeout (if 0 <? global then Some global else None)
                    = if 0 <? global then Some global else None).
  { destruct (Z.ltb_spec 0 global) as [Hg|Hg]; simpl; [|reflexivity].
    destruct (Z.eqb_spec global 0); [lia|].
    destruct (Z.ltb_spec 0 global); [reflexivity | lia]. }
  destruct (Job.timeout_s job) as [n|] eqn:Hto.
  - destruct (Z.eqb_spec n 0) as [-> | Hn0].
    + rewrite Hcfg. simpl. eexists. split; [reflexivity|].
      split; [intros n [= <-]; lia|]. split; [intros _; exact Hglobal|].
      split; [intros n [= <-]; lia | exact Hpos].
    + eexists. split; [reflexivity|]. simpl.
      destruct (Z.eqb_spec n 0); [contradiction|]. simpl.
      split; [|split; [|split]].
      * intros m [= <-] Hm. destruct (Z.ltb_spec 0 n); [reflexivity | lia].
      * intros [[=] | [= ->]]. contradiction.
      * intros m [= <-] Hm. destruct (Z.ltb_spec 0 n); [lia | reflexivity].
      * intros t. destruct (Z.ltb_spec 0 n); [|discriminate].
        intros [= <-]. lia.
  - rewrite Hcfg. simpl. eexists. split; [reflexivity|].
    split; [discriminate|]. split; [intros _; exact Hglobal|].
    split; [discriminate | exact Hpos].
Qed.

(** *** The config table *)

(** X16. [ConfigManager.set] is an upsert: it returns whether or not the
    key exists, afterwards [get] returns the value and [get_int] reads
    it (the default for the empty string, [int(value)] otherwise), and
    no other key and no other table changes. *)
Theorem config_set_then_get w key value default :
  exists w',
    config_set key value w = Ok tt w' /\
    config_get key w' = Ok (Some value) w' /\
    get_int key default w'
    = (if String.eqb value ""
       then Ok default w'
       else lift_option ValueError (py_int value) w') /\
    (forall other, other <> key -> config w' !! other = config w !! other) /\
    jobs w' = jobs w /\
    workers w' = workers w.
Proof.
  exists (set_config (<[key := value]> (config w)) w).
  split.
  { unfold config_set, bind, config_get, session_commit_config,
      session_add_config.
    destruct (config w !! key) eqn:Hk; [reflexivity|]. now rewrite Hk. }
  split.
  { unfold config_get. simpl. now rewrite lookup_insert_eq. }
  split.
  { unfold get_int, bind, config_get. simpl. rewrite lookup_insert_eq.
    now destruct (String.eqb value ""). }
  split; [|now split].
  intros other Hne. simpl. now rewrite lookup_insert_ne.
Qed.

Lemma seed_defaults_union defaults w :
  exists w',
    seed_defaults defaults w = Ok tt w' /\
    config w' = config w ∪ list_to_map defaults /\
    jobs w' = jobs w /\
    workers w' = workers w.
Proof.
  revert w. induction defaults as [|[key value] rest IH]; intros w.
  - exists w. split; [reflexivity|]. simpl.
    split; [now rewrite (right_id_L ∅ (∪)) | now split].
  - cbn [seed_defaults]. unfold bind at 1 2, config_get.
    destruct (config w !! key) as [old|] eqn:Hk.
    + unfold ret. destruct (IH w) as (w' & Hrun & Hcfg & Hj & Hw).
      exists w'. split; [exact Hrun|]. split; [|now split].
      rewrite Hcfg. apply map_eq. intros k. simpl.
      rewrite !lookup_union.
      destruct (decide (key = k)) as [<- | Hne].
      * rewrite Hk, lookup_insert_eq.
        now destruct (list_to_map rest !! key).
      * now rewrite lookup_insert_ne.
    + unfold session_add_config. rewrite Hk.
      destruct (IH (set_config (<[key := value]> (config w)) w))
        as (w' & Hrun & Hcfg & Hj & Hw).
      exists w'. split; [exact Hrun|]. split; [|now split].
      rewrite Hcfg. apply map_eq. intros k. simpl.
      rewrite !lookup_union.
      destruct (decide (key = k)) as [<- | Hne].
      * rewrite Hk, !lookup_insert_eq.
        now destruct (list_to_map rest !! key).
      * now rewrite !lookup_insert_ne.
Qed.

(** X17. [_seed_default_config] never overwrites a setting: afterwards a
    key that was set keeps its value, each of the six default keys that
    was missing holds its default, and nothing else changes. Seeding a
    second time changes no value. *)
Theorem seed_keeps_settings w :
  exists w',
    _seed_default_config w = Ok tt w' /\
    (forall key,
        config w' !! key
        = match config w !! key with
          | Some value => Some value
          | None => (list_to_map default_config : gmap string string) !! key
          end) /\
    jobs w' = jobs w /\
    workers w' = workers w /\
    exists w'', _seed_default_config w' = Ok tt w'' /\ config w'' = config w'.
Proof.
  unfold _seed_default_config.
  destruct (seed_defaults_union default_config w) as (w' & Hrun & Hcfg & Hj & Hw).
  exists w'. split; [exact Hrun|]. split.
  { intros key. rewrite Hcfg, lookup_union.
    destruct (config w !! key);
      now destruct ((list_to_map default_config : gmap string string) !! key). }
  split; [exact Hj|]. split; [exact Hw|].
  destruct (seed_defaults_union default_config w') as (w'' & Hrun' & Hcfg' & _).
  exists w''. split; [exact Hrun'|].
  rewrite Hcfg', Hcfg. apply map_eq. intros key. rewrite !lookup_union.
  destruct (config w !! key);
    now destruct ((list_to_map default_config : gmap string string) !! key).
Qed.

(** *** The lock-expiry helper and the claim query *)


(** *** Listing jobs *)

Lemma list_filterb_iff state pro now job :
  list_filterb state pro now job = true <-> listed_filter state pro now job.
Proof.
  unfold list_filterb, listed_filter. rewrite andb_true_iff. split.
  - intros [Hs Hp]. split.
    + intros s -> Hne. apply String.eqb_neq in Hne. rewrite Hne in Hs.
      now apply String.eqb_eq.
    + intros ->. apply andb_true_iff in Hp as [Hp Hr].
      split; [now apply String.eqb_eq | now apply Z.leb_le].
  - intros [Hs Hp]. split.
    + destruct state as [s|]; [|reflexivity].
      destruct (String.eqb_spec s ""); [reflexivity|]. simpl.
      apply String.eqb_eq. now apply Hs.
    + destruct pro; [|reflexivity]. destruct (Hp eq_refl) as [Hst Hr].
      apply andb_true_iff. split; [now apply String.eqb_eq | now apply Z.leb_le].
Qed.

Lemma list_jobs_run w state limit pro :
  exists n,
    list_jobs state limit pro w
    = Ok (take n (@merge_sort _ created_desc created_desc_dec
                    (List.filter
                       (list_filterb state pro (clock w (ticks w)))
                       (map snd (map_to_list (jobs w))))))
         (if pro then tick w else w) /\
    (unbounded limit ->
     take n (@merge_sort _ created_desc created_desc_dec
               (List.filter (list_filterb state pro (clock w (ticks w)))
                            (map snd (map_to_list (jobs w)))))
     = @merge_sort _ created_desc created_desc_dec
         (List.filter (list_filterb state pro (clock w (ticks w)))
                      (map snd (map_to_list (jobs w))))) /\
    (forall m, limit = Some m -> 0 < m -> n = Z.to_nat m).
Proof.
  set (sorted := @merge_sort _ created_desc created_desc_dec
                   (List.filter (list_filterb state pro (clock w (ticks w)))
                                (map snd (map_to_list (jobs w))))).
  assert (Hrun : list_jobs state limit pro w
                 = Ok (match limit with
                       | Some m => if negb (m =? 0) then sql_limit m sorted
                                   else sorted
                       | None => sorted
                       end) (if pro then tick w else w)).
  { unfold list_jobs, bind, select_jobs, ret, utcnow. now destruct pro. }
  rewrite Hrun.
  destruct limit as [m|].
  - destruct (Z.eqb_spec m 0) as [-> | Hm0]; simpl.
    + exists (length sorted). rewrite firstn_all.
      split; [reflexivity|]. split; [reflexivity|]. intros m [= <-]. lia.
    + unfold sql_limit. destruct (Z.ltb_spec m 0) as [Hneg | Hpos].
      * exists (length sorted). rewrite firstn_all.
        split; [reflexivity|]. split; [reflexivity|]. intros k [= <-]. lia.
      * exists (Z.to_nat m). split; [reflexivity|]. split.
        -- intros [[=] | (k & [= <-] & Hk)]. lia.
        -- now intros k [= <-].
  - exists (length sorted). rewrite firstn_all.
    split; [reflexivity|]. split; [reflexivity|]. discriminate.
Qed.

Lemma in_rows_stored w job :
  In job (map snd (map_to_list (jobs w))) <-> stored w job.
Proof.
  rewrite in_map_iff. split.
  - intros ([key j] & <- & Hin). exists key.
    now apply list_elem_of_In, elem_of_map_to_list in Hin.
  - intros [key Hrow]. exists (key, job). split; [reflexivity|].
    now apply list_elem_of_In, elem_of_map_to_list.
Qed.

Lemma in_take {A} (x : A) n l : In x (take n l) -> In x l.
Proof.
  intros Hin. rewrite <- (take_drop n l). apply in_or_app. now left.
Qed.

Lemma created_desc_total : Total created_desc.
Proof. intros a b. unfold created_desc. lia. Qed.

Lemma created_desc_trans : Transitive created_desc.
Proof. intros a b c. unfold created_desc. lia. Qed.

(** X19. [list_jobs] returns only rows of the table that pass its
    filters, where an empty [state] string filters nothing and
    [pending_ready_only] is applied on top of [state]; so asking for
    ready jobs of any state other than [pending] gives the empty list.
    Without an effective limit ([None], 0 or negative) it returns every
    such row. It reads the clock only for [pending_ready_only] and
    writes nothing. *)
Theorem list_jobs_filters w state limit pro :
  exists rows w',
    list_jobs state limit pro w = Ok rows w' /\
    w' = (if pro then tick w else w) /\
    (forall job,
        In job rows ->
        stored w job /\ listed_filter state pro (clock w (ticks w)) job) /\
    (unbounded limit ->
     forall job,
       stored w job -> listed_filter state pro (clock w (ticks w)) job ->
       In job rows) /\
    (forall s, state = Some s -> s <> ""%string -> s <> "pending"%string ->
               pro = true -> rows = []).
Proof.
  destruct (list_jobs_run w state limit pro) as (n & Hrun & Hall & _).
  eexists _, _. split; [exact Hrun|]. split; [reflexivity|].
  assert (Hsound : forall job,
             In job (take n (@merge_sort _ created_desc created_desc_dec
                               (List.filter
                                  (list_filterb state pro (clock w (ticks w)))
                                  (map snd (map_to_list (jobs w)))))) ->
             stored w job /\ listed_filter state pro (clock w (ticks w)) job).
  { intros job Hin. apply in_take in Hin.
    apply (Permutation_in _ (merge_sort_Permutation _ _)) in Hin.
    apply filter_In in Hin as [Hin Hf].
    split; [now apply in_rows_stored | now apply list_filterb_iff]. }
  split; [exact Hsound|]. split.
  - intros Hunb job Hst Hf. rewrite (Hall Hunb).
    apply (Permutation_in _ (Permutation_sym (merge_sort_Permutation _ _))).
    apply filter_In. split; [now apply in_rows_stored |
                             now apply list_filterb_iff].
  - intros s -> Hne Hnp ->.
    destruct (take n _) as [|job rest] eqn:Hrows; [reflexivity|].
    destruct (Hsound job) as [_ [Hs Hp]]; [now left|].
    destruct (Hp eq_refl) as [Hpend _]. specialize (Hs s eq_refl Hne).
    congruence.
Qed.

(** X20. [list_jobs] returns the newest jobs first: the list is ordered
    by [created_at], latest first; with a positive [limit] it has at
    most [limit] entries, and every matching row that was left out was
    created no later than every row returned. *)
Theorem list_jobs_newest_first w state limit pro rows w' :
  list_jobs state limit pro w = Ok rows w' ->
  StronglySorted created_desc rows /\
  (forall n, limit = Some n -> 0 < n ->
     (length rows <= Z.to_nat n)%nat /\
     forall job other,
       In job rows ->
       stored w other ->
       listed_filter state pro (clock w (ticks w)) other ->
       ~ In other rows ->
       Job.created_at other <= Job.created_at job).
Proof.
  intros Hrun.
  destruct (list_jobs_run w state limit pro) as (n & Hrun' & _ & Hn).
  rewrite Hrun in Hrun'. injection Hrun' as -> _.
  set (sorted := @merge_sort _ created_desc created_desc_dec
                   (List.filter (list_filterb state pro (clock w (ticks w)))
                                (map snd (map_to_list (jobs w))))).
  assert (Hsorted : StronglySorted created_desc
                      (take n sorted ++ drop n sorted)).
  { rewrite take_drop.
    apply StronglySorted_merge_sort;
      [apply created_desc_trans | apply created_desc_total]. }
  split; [now apply StronglySorted_app_1_l in Hsorted|].
  intros m Hm Hpos. rewrite (Hn m Hm Hpos). split.
  - rewrite length_take. lia.
  - intros job other Hin Hst Hf Hout.
    assert (Hall : In other sorted).
    { apply (Permutation_in _ (Permutation_sym (merge_sort_Permutation _ _))).
      apply filter_In. split; [now apply in_rows_stored |
                               now apply list_filterb_iff]. }
    rewrite <- (take_drop (Z.to_nat m) sorted) in Hall.
    apply in_app_or in Hall as [Hin' | Hdrop]; [contradiction|].
    rewrite (Hn m Hm Hpos) in Hsorted.
    apply (StronglySorted_app_1_elem_of _ _ _ job other Hsorted);
      now apply list_elem_of_In.
Qed.

(** X21. [list_dlq_jobs] returns dead jobs only, and with no limit all
    of them; it never reads the clock. *)
Theorem list_dlq_jobs_dead_only w limit :
  exists rows,
    list_dlq_jobs limit w = Ok rows w /\
    (forall job, In job rows -> stored w job /\ Job.state job = "dead") /\
    (unbounded limit ->
     forall job, stored w job -> Job.state job = "dead" -> In job rows).
Proof.
  unfold list_dlq_jobs.
  destruct (list_jobs_run w (Some "dead"%string) limit false)
    as (n & Hrun & Hall & _).
  eexists. split; [exact Hrun|]. split.
  - intros job Hin. apply in_take in Hin.
    apply (Permutation_in _ (merge_sort_Permutation _ _)) in Hin.
    apply filter_In in Hin as [Hin Hf].
    split; [now apply in_rows_stored|].
    apply list_filterb_iff in Hf as [Hs _]. now apply Hs.
  - intros Hunb job Hst Hdead. rewrite (Hall Hunb).
    apply (Permutation_in _ (Permutation_sym (merge_sort_Permutation _ _))).
    apply filter_In. split; [now apply in_rows_stored|].
    apply list_filterb_iff. split; [|discriminate].
    now intros s [= <-] _.
Qed.

(** *** Counting jobs by state *)

Lemma count_fold (l : list (string * Job.t)) s :
  foldr (fun r counts => count_state (snd r) counts) ∅ l !! s
  = match length (List.filter (fun r => String.eqb (Job.state (snd r)) s) l)
    with
    | O => None
    | S n => Some (Z.of_nat (S n))
    end.
Proof.
  induction l as [|[key job] l IH]; [reflexivity|].
  cbn [foldr List.filter snd]. unfold count_state at 1.
  destruct (String.eqb_spec (Job.state job) s) as [-> | Hne].
  - rewrite lookup_insert_eq, IH. cbn [length].
    destruct (length _) as [|n]; simpl; f_equal; lia.
  - rewrite lookup_insert_ne by exact Hne. exact IH.
Qed.

(** X22. [get_state_counts] maps each state to the number of jobs in
    it: a state no job is in has no entry (rather than a zero), and
    every entry is the positive count of the rows with that state. *)
Theorem get_state_counts_exact w :
  exists counts,
    get_state_counts w = Ok counts w /\
    (forall s, counts !! s = None <->
               forall job, stored w job -> Job.state job <> s) /\
    (forall s n,
        counts !! s = Some n ->
        0 < n /\
        n = Z.of_nat
              (length (List.filter
                         (fun r => String.eqb (Job.state (snd r)) s)
                         (map_to_list (jobs w))))).
Proof.
  eexists. split; [reflexivity|]. split.
  - intros s. rewrite count_fold. split.
    + intros Hnone job [key Hrow] Hst.
      assert (Hin : In (key, job)
                       (List.filter
                          (fun r => String.eqb (Job.state (snd r)) s)
                          (map_to_list (jobs w)))).
      { apply filter_In. split.
        - now apply list_elem_of_In, elem_of_map_to_list.
        - simpl. now apply String.eqb_eq. }
      destruct (List.filter _ _); [destruct Hin | discriminate].
    + intros Hno.
      destruct (List.filter _ _) as [|[key job] rest] eqn:Hf; [reflexivity|].
      exfalso.
      assert (Hin : In (key, job)
                       (List.filter
                          (fun r => String.eqb (Job.state (snd r)) s)
                          (map_to_list (jobs w))))
        by (rewrite Hf; now left).
      apply filter_In in Hin as [Hin Hst]. simpl in Hst.
      apply String.eqb_eq in Hst.
      apply list_elem_of_In, elem_of_map_to_list in Hin.
      apply (Hno job); [now exists key | exact Hst].
  - intros s n. rewrite count_fold.
    destruct (length _) as [|k]; [discriminate|].
    intros [= <-]. split; [lia | reflexivity].
Qed.

(** *** The worker registry, continued *)







(** X26. Registration and deregistration undo each other: registering a
    fresh id and deregistering it leaves the worker table as it was, so
    the id can be registered again. For an id that is not registered,
    [heartbeat] and [deregister_worker] return without creating or
    changing any row. *)
Theorem register_deregister_round_trip w worker_id :
  workers w !! worker_id = None ->
  heartbeat worker_id w = Ok tt w /\
  deregister_worker worker_id w = Ok tt w /\
  exists worker w1 w2 worker' w3,
    register_worker worker_id w = Ok worker w1 /\
    deregister_worker worker_id w1 = Ok tt w2 /\
    workers w2 = workers w /\
    register_worker worker_id w2 = Ok worker' w3.
Proof.
  intros Hfree.
  split; [unfold heartbeat, bind, session_get_worker; now rewrite Hfree|].
  split; [unfold deregister_worker, bind, session_get_worker;
          now rewrite Hfree|].
  set (worker := {| Worker.id := worker_id;
                    Worker.started_at := clock w (ticks w);
                    Worker.last_heartbeat := clock w (ticks w);
                    Worker.status := "active" |}).
  set (w1 := set_workers (<[worker_id := worker]> (workers w)) (tick w)).
  set (w2 := set_workers (delete worker_id (workers w1)) w1).
  assert (H1 : register_worker worker_id w = Ok worker w1).
  { unfold register_worker, bind, utcnow, session_add_worker, ret. simpl.
    now rewrite Hfree. }
  assert (H2 : deregister_worker worker_id w1 = Ok tt w2).
  { unfold deregister_worker, bind, session_get_worker. simpl.
    now rewrite lookup_insert_eq. }
  assert (H3 : workers w2 = workers w).
  { simpl. rewrite delete_insert_eq. now apply delete_id. }
  exists worker, w1, w2. eexists _, _.
  split; [exact H1|]. split; [exact H2|]. split; [exact H3|].
  unfold register_worker, bind, utcnow, session_add_worker, ret.
  cbn [workers tick Worker.id]. rewrite H3, Hfree. reflexivity.
Qed.

(** *** Shell or argv *)

Lemma prefix_single c s :
  String.prefix (String c "") s = true <->
  exists rest, s = String c rest.
Proof.
  destruct s as [|a s]; simpl.
  - split; [discriminate | intros [rest [=]]].
  - destruct (ascii_dec c a) as [-> | Hne].
    + split; [eauto | intros _; now destruct s].
    + split; [discriminate | intros [rest [= -> _]]; contradiction].
Qed.

Lemma str_contains_single c s :
  str_contains (String c "") s = true <-> In c (list_ascii_of_string s).
Proof.
  induction s as [|a s IH].
  - simpl. split; [discriminate | tauto].
  - cbn [str_contains list_ascii_of_string]. rewrite orb_true_iff, IH.
    rewrite prefix_single. simpl. split.
    + intros [[rest [= -> _]] | Hin]; auto.
    + intros [-> | Hin]; [left; eauto | now right].
Qed.

Lemma prefix_head c rest s :
  String.prefix (String c rest) s = true ->
  String.prefix (String c "") s = true.
Proof.
  destruct s as [|a s]; simpl; [discriminate|].
  destruct (ascii_dec c a); [|discriminate]. now destruct s.
Qed.

Lemma str_contains_head c rest s :
  str_contains (String c rest) s = true ->
  str_contains (String c "") s = true.
Proof.
  induction s as [|a s IH]; cbn [str_contains]; rewrite !orb_true_iff.
  - intros [Hp | [=]]. left. now apply prefix_head in Hp.
  - intros [Hp | Hc]; [left; now apply prefix_head in Hp | right; auto].
Qed.

(** X27. [execute_job] sets [use_shell] exactly when the command
    contains one of the five characters [|], [>], [<], [&], [;]. The
    entries [&&] and [||] of the operator list never decide, and for a
    command without these characters, the empty command included,
    [use_shell] is false. *)
Theorem use_shell_characters command :
  use_shell command = true <->
  exists c,
    In c (list_ascii_of_string command) /\
    In c ["|"; ">"; "<"; "&"; ";"]%char.
Proof.
  unfold use_shell, shell_operators. cbn [existsb].
  rewrite !orb_true_iff.
  rewrite !str_contains_single. split.
  - intros [H | [H | [H | [H | [H | [H | [H | H]]]]]]]; [| | | | | | |easy].
    + exists "|"%char. split; [exact H | simpl; tauto].
    + exists ">"%char. split; [exact H | simpl; tauto].
    + exists "<"%char. split; [exact H | simpl; tauto].
    + exists "&"%char. split; [exact H | simpl; tauto].
    + apply str_contains_head, str_contains_single in H.
      exists "&"%char. split; [exact H | simpl; tauto].
    + apply str_contains_head, str_contains_single in H.
      exists "|"%char. split; [exact H | simpl; tauto].
    + exists ";"%char. split; [exact H | simpl; tauto].
  - intros (c & Hin & [<- | [<- | [<- | [<- | [<- | []]]]]]); auto 12.
Qed.

(** *** Rows and their keys *)

Lemma perform_written c w :
  jobs (perform c w) = jobs w \/
  exists key job',
    jobs (perform c w) = <[key := job']> (jobs w) /\
    match jobs w !! key with
    | Some job => Job.id job' = Job.id job
    | None => Job.id job' = key
    end.
Proof.
  destruct c as [cmd jid prio ra to mr bb | wid | jid ec out err d
                | jid ec out err d | jid]; simpl.
  - pose proof (create_job_effect w cmd jid prio ra to mr bb) as He.
    destruct (create_job cmd jid prio ra to mr bb w) as [new w' | e w'];
      simpl.
    + destruct He as (Hfree & -> & _). right. exists (Job.id new), new.
      split; [reflexivity|]. now rewrite Hfree.
    + left. apply He.
  - destruct (claim_job_written w wid)
      as [-> | (k & old & new & Hold & -> & Hid & _)]; [now left|].
    right. exists k, new. split; [reflexivity|]. rewrite Hold. apply Hid.
  - destruct (mark_success_written w jid ec out err d)
      as [-> | (old & new & Hold & -> & Hid & _)]; [now left|].
    right. exists jid, new. split; [reflexivity|]. rewrite Hold. apply Hid.
  - destruct (mark_failure_written w jid ec out err d)
      as [-> | (old & new & Hold & -> & Hid & _)]; [now left|].
    right. exists jid, new. split; [reflexivity|]. rewrite Hold. apply Hid.
  - destruct (retry_dlq_job_written w jid)
      as [-> | (old & new & Hold & -> & Hid & _)]; [now left|].
    right. exists jid, new. split; [reflexivity|]. rewrite Hold. apply Hid.
Qed.

(** X28. The [id] column and the primary key stay together: when every
    row is stored under its own id, the same holds after any of the five
    job calls, including the row [create_job] inserts. *)
Theorem row_ids_preserved c w : wf_jobs w -> wf_jobs (perform c w).
Proof.
  intros Hwf. unfold wf_jobs in *.
  destruct (perform_written c w) as [-> | (key & job' & -> & Hid)];
    [exact Hwf|].
  apply map_Forall_insert_2; [|exact Hwf].
  destruct (jobs w !! key) as [job|] eqn:Hrow; [|exact Hid].
  rewrite Hid. exact (Hwf _ _ Hrow).
Qed.

End Properties.

(** * The backoff formula in exact arithmetic

    On [exact_runtime] the delay is
    [min(max_backoff_s, base^attempts) + 0.5 * base * u] for the value
    [u] of [random.random()], and the bounds of the retry policy follow.
    Rounding and overflow of binary64 are outside this statement. *)

Lemma exact_delay_formula (e b u : Q) (mb : Z) :
  (0 < e)%Q -> (11 # 10 <= b)%Q -> 0 < mb -> (0 <= u < 1)%Q ->
  let capped := if negb (Qle_bool (Qred e) (inject_Z mb))
                then inject_Z mb else Qred e in
  let jitter :=
    Qred (inject_Z 0 + Qred (Qred (Qred ((1 # 2) * b) - inject_Z 0) * u)) in
  let delay := Qred (capped + jitter) in
  (jitter == (1 # 2) * b * u)%Q /\
  (0 <= jitter <= (1 # 2) * b)%Q /\
  (delay == Qmin (inject_Z mb) e + jitter)%Q /\
  (0 < delay)%Q /\
  (delay <= inject_Z mb + (1 # 2) * b)%Q /\
  ((e <= inject_Z mb)%Q -> (e <= delay)%Q).
Proof.
  intros He Hb Hmb [Hu0 Hu1] capped jitter delay.
  assert (Hmbq : (0 < inject_Z mb)%Q).
  { change 0%Q with (inject_Z 0). rewrite <- Zlt_Qlt. exact Hmb. }
  assert (Hj : (jitter == (1 # 2) * b * u)%Q).
  { unfold jitter. rewrite !Qred_correct. change (inject_Z 0) with 0%Q. ring. }
  assert (Hc : (capped == Qmin (inject_Z mb) e)%Q).
  { unfold capped. destruct (Qle_bool (Qred e) (inject_Z mb)) eqn:Hle; simpl.
    - apply Qle_bool_iff in Hle. rewrite Qred_correct in *.
      symmetry. now apply Q.min_r.
    - symmetry. apply Q.min_l. apply Qlt_le_weak, Qnot_le_lt. intros Hle'.
      rewrite <- (Qred_correct e) in Hle'. apply Qle_bool_iff in Hle'.
      congruence. }
  assert (Hd : (delay == Qmin (inject_Z mb) e + jitter)%Q).
  { unfold delay. rewrite Qred_correct, Hc. reflexivity. }
  assert (Hjr : (0 <= jitter <= (1 # 2) * b)%Q).
  { rewrite Hj. split; nra. }
  assert (Hmin0 : (0 < Qmin (inject_Z mb) e)%Q).
  { apply Q.min_case_strong; [intros x y Hxy; now rewrite Hxy | auto | auto]. }
  pose proof (Q.le_min_l (inject_Z mb) e) as Hminl.
  split; [exact Hj|]. split; [exact Hjr|]. split; [exact Hd|].
  rewrite Hd. split; [lra|]. split; [lra|].
  intros Hle. rewrite (Q.min_r _ _ Hle). lra.
Qed.

Lemma exact_backoff_delay_bounds (w : World) (attempts : Z) (base : Q)
    (max_backoff_s : Z) :
  0 <= attempts -> (11 # 10 <= base)%Q -> 0 < max_backoff_s ->
  (0 <= rng w (draws w) < 1)%Q ->
  exists delay jitter : Q,
    calculate_backoff_delay attempts base max_backoff_s w
    = Ok delay (draw w) /\
    (jitter == (1 # 2) * base * rng w (draws w))%Q /\
    (0 <= jitter <= (1 # 2) * base)%Q /\
    (delay == Qmin (inject_Z max_backoff_s) (base ^ attempts) + jitter)%Q /\
    (0 < delay)%Q /\
    (delay <= inject_Z max_backoff_s + (1 # 2) * base)%Q /\
    ((base ^ attempts <= inject_Z max_backoff_s)%Q ->
     (base ^ attempts <= delay)%Q).
Proof.
  intros Hat Hbase Hmb Hu.
  assert (Hpow : (0 < base ^ attempts)%Q) by (apply Qpower_0_lt; lra).
  unfold calculate_backoff_delay, bind, lift_option. simpl.
  unfold exact_pow. destruct (Z.ltb_spec attempts 0) as [Hneg|_]; [lia|].
  simpl. eexists _, _. split; [reflexivity|].
  exact (exact_delay_formula (base ^ attempts) base (rng w (draws w))
                             max_backoff_s Hpow Hbase Hmb Hu).
Qed.

(** * Runs on concrete stores *)


(** On [claim_world] the claim goes to [H]: same [run_at] as [L], higher
    priority; [F] is not yet due and [D] is dead. *)
Example claim_world_claims_H :
  match claim_job "worker-1" claim_world with
  | Ok (Some claimed) _ =>
      Some (Job.id claimed, Job.state claimed, Job.locked_by claimed)
  | _ => None
  end = Some ("H", "processing", Some "worker-1").
Proof. vm_compute. reflexivity. Qed.


(** C6, as stated, fails: the second registration of the same id raises. *)
Lemma register_worker_twice_raises :
  match register_worker "worker-1" empty_world with
  | Ok worker w' => Worker.id worker = "worker-1" /\ w' = registered_world
  | Raise _ _ => False
  end /\
  register_worker "worker-1" registered_world
  = Raise IntegrityError (tick registered_world).
Proof. split; [split|]; reflexivity. Qed.

(** C3, as stated, fails: from the empty store, a job created with
    [max_retries = 1] is dead after one [mark_failure] with both
    invariants holding, and a second [mark_failure] leaves it with
    [attempts = 2 > max_retries]. *)
Lemma mark_failure_overruns_budget :
  within_budget (CreateJob "false" (Some "j") 0 None None (Some 1) None)
                empty_world /\
  attempts_inv empty_world /\
  attempts_inv created_world /\
  attempts_inv failed_once_world /\
  ~ attempts_inv failed_twice_world.
Proof.
  split; [reflexivity|].
  split; [apply map_Forall_empty|].
  split; [apply (all_jobs_sound _ _ _ attempts_inv_jobb_sound);
          vm_compute; reflexivity|].
  split; [apply (all_jobs_sound _ _ _ attempts_inv_jobb_sound);
          vm_compute; reflexivity|].
  intros Hinv.
  destruct (jobs failed_twice_world !! "j") as [job|] eqn:Hjob.
  - destruct (Hinv _ _ Hjob) as [[_ Hle] _].
    assert (Hat : Job.attempts <$> jobs failed_twice_world !! "j" = Some 2)
      by (vm_compute; reflexivity).
    assert (Hmr : Job.max_retries <$> jobs failed_twice_world !! "j" = Some 1)
      by (vm_compute; reflexivity).
    rewrite Hjob in Hat, Hmr. simpl in Hat, Hmr.
    injection Hat as Hat. injection Hmr as Hmr. lia.
  - assert (Hsome : is_Some (Job.attempts <$> jobs failed_twice_world !! "j"))
      by (vm_compute; eauto).
    rewrite Hjob in Hsome. destruct Hsome as [? [=]].
Qed.

Lemma attempts_invariant_preserved_witness :
  attempts_inv retry_world /\
  within_budget (MarkFailure "j" 1 [] [] 5) retry_world /\
  attempts_inv (perform (MarkFailure "j" 1 [] [] 5) retry_world).
Proof.
  assert (Hinv : attempts_inv retry_world).
  { apply (all_jobs_sound _ _ _ attempts_inv_jobb_sound).
    vm_compute. reflexivity. }
  assert (Hpre : within_budget (MarkFailure "j" 1 [] [] 5) retry_world).
  { intros job Hjob.
    assert (Hrow : jobs retry_world !! "j" = Some retry_job) by reflexivity.
    rewrite Hrow in Hjob. injection Hjob as <-. reflexivity. }
  split; [exact Hinv|]. split; [exact Hpre|].
  exact (attempts_invariant_preserved (MarkFailure "j" 1 [] [] 5) retry_world
                                      Hinv Hpre).
Defined.

Lemma lock_invariant_preserved_witness :
  lock_inv claim_world /\
  lock_inv (perform (ClaimJob "worker-1") claim_world).
Proof.
  assert (Hinv : lock_inv claim_world).
  { apply (all_jobs_sound _ _ _ lock_inv_jobb_sound). vm_compute. reflexivity. }
  split; [exact Hinv|].
  exact (lock_invariant_preserved (ClaimJob "worker-1") claim_world Hinv).
Defined.



(** C2 at two outputs of two-byte characters. [long_output] is cut to
    8192 code points, which are 16384 bytes; [wide_output], 10000 bytes
    in 5000 code points, is stored whole. Reading the job back returns
    the stored column. *)
Theorem mark_success_truncates_code_points :
  byte_size long_output = Z.to_nat 16386 /\
  byte_size wide_output = Z.to_nat 10000 /\
  (exists w' job' stored,
      mark_success "j" 0 long_output long_output 100 retry_world = Ok tt w' /\
      get_job "j" w' = Ok (Some job') w' /\
      Job.stdout job' = Some stored /\
      Job.stderr job' = Some stored /\
      length stored = Z.to_nat 8192 /\
      byte_size stored = Z.to_nat 16384) /\
  (exists w' job',
      mark_success "j" 0 wide_output wide_output 100 retry_world = Ok tt w' /\
      get_job "j" w' = Ok (Some job') w' /\
      Job.stdout job' = Some wide_output /\
      Job.stderr job' = Some wide_output).
Proof.
  assert (Hrow : jobs retry_world !! "j" = Some retry_job) by reflexivity.
  split; [apply byte_size_repeat_two_bytes; lia|].
  split; [apply byte_size_repeat_two_bytes; lia|].
  split.
  - destruct (mark_success_present retry_world "j" retry_job 0 long_output
                long_output 100 Hrow)
      as (job' & Hrun & _ & _ & Hout & Herr & _).
    assert (Hcut : truncate_output long_output
                   = Some (replicate (Z.to_nat 8192) 233%N))
      by (vm_compute; reflexivity).
    eexists _, job', (replicate (Z.to_nat 8192) 233%N).
    split; [exact Hrun|].
    split; [unfold get_job, session_get_job; simpl;
            now rewrite lookup_insert_eq|].
    rewrite Hout, Herr, Hcut.
    split; [reflexivity|]. split; [reflexivity|].
    split; [apply length_replicate | apply byte_size_repeat_two_bytes; lia].
  - destruct (mark_success_present retry_world "j" retry_job 0 wide_output
                wide_output 100 Hrow)
      as (job' & Hrun & _ & _ & Hout & Herr & _).
    assert (Hcut : truncate_output wide_output = Some wide_output)
      by (vm_compute; reflexivity).
    eexists _, job'. split; [exact Hrun|].
    split; [unfold get_job, session_get_job; simpl;
            now rewrite lookup_insert_eq|].
    rewrite Hout, Herr, Hcut. now split.
Qed.

(** ** Runs for the further properties *)

Lemma wf_claim_world : wf_jobs claim_world.
Proof.
  unfold wf_jobs, claim_world, example_world. cbn [jobs].
  repeat (apply map_Forall_insert_2; [reflexivity|]).
  apply map_Forall_empty.
Qed.

Lemma wf_echo_world : wf_jobs echo_world.
Proof.
  unfold wf_jobs, echo_world, example_world. cbn [jobs].
  apply map_Forall_insert_2; [reflexivity|]. apply map_Forall_empty.
Qed.

Lemma claim_job_skips_other_states_witness :
  jobs stuck_world !! "S" = Some stuck_job /\
  Job.state stuck_job <> "pending" /\
  Job.state stuck_job <> "failed" /\
  jobs (world_of (claim_job "worker-1" stuck_world)) !! "S" = Some stuck_job.
Proof.
  assert (H1 : jobs stuck_world !! "S" = Some stuck_job) by reflexivity.
  assert (H2 : Job.state stuck_job <> "pending") by discriminate.
  assert (H3 : Job.state stuck_job <> "failed") by discriminate.
  split; [exact H1|]. split; [exact H2|]. split; [exact H3|].
  exact (claim_job_skips_other_states stuck_world "worker-1" "S" stuck_job
                                      H1 H2 H3).
Defined.

Lemma consecutive_claims_differ_witness :
  wf_jobs claim_world /\
  claim_job "worker-1" claim_world
  = Ok (Some (claimed_by "worker-1" (example_clock 0) high_job))
       first_claim_world /\
  claim_job "worker-2" first_claim_world
  = Ok (Some (claimed_by "worker-2" (example_clock 1) low_job))
       second_claim_world /\
  Job.id (claimed_by "worker-1" (example_clock 0) high_job)
  <> Job.id (claimed_by "worker-2" (example_clock 1) low_job) /\
  jobs second_claim_world
  !! Job.id (claimed_by "worker-1" (example_clock 0) high_job)
  = Some (claimed_by "worker-1" (example_clock 0) high_job).
Proof.
  assert (H1 : claim_job "worker-1" claim_world
               = Ok (Some (claimed_by "worker-1" (example_clock 0) high_job))
                    first_claim_world) by reflexivity.
  assert (H2 : claim_job "worker-2" first_claim_world
               = Ok (Some (claimed_by "worker-2" (example_clock 1) low_job))
                    second_claim_world) by reflexivity.
  split; [exact wf_claim_world|]. split; [exact H1|]. split; [exact H2|].
  exact (consecutive_claims_differ claim_world "worker-1" "worker-2" _ _ _ _
                                   wf_claim_world H1 H2).
Defined.


Lemma rows_keep_identity_witness :
  jobs retry_world !! "j" = Some retry_job /\
  exists job',
    jobs (perform (MarkFailure "j" 1 [] [] 5) retry_world) !! "j" = Some job' /\
    same_identity retry_job job'.
Proof.
  split; [reflexivity|].
  exact (rows_keep_identity (MarkFailure "j" 1 [] [] 5) retry_world "j"
                            retry_job eq_refl).
Defined.

Lemma attempts_evolution_witness :
  jobs retry_world !! "j" = Some retry_job /\
  exists job',
    jobs (perform (MarkFailure "j" 1 [] [] 5) retry_world) !! "j"
    = Some job' /\
    attempts_step (MarkFailure "j" 1 [] [] 5) "j" retry_job job'.
Proof.
  split; [reflexivity|].
  destruct (mark_failure_written retry_world "j" 1 [] [] 5)
    as [Hsame | (job & job' & _ & Hw & _)].
  - assert (H : jobs (perform (MarkFailure "j" 1 [] [] 5) retry_world) !! "j"
                = Some retry_job)
      by (unfold perform; rewrite Hsame; reflexivity).
    exists retry_job. split; [exact H|].
    exact (attempts_evolution (MarkFailure "j" 1 [] [] 5) retry_world "j"
                              retry_job retry_job eq_refl H).
  - assert (H : jobs (perform (MarkFailure "j" 1 [] [] 5) retry_world) !! "j"
                = Some job')
      by (unfold perform; rewrite Hw; apply lookup_insert_eq).
    exists job'. split; [exact H|].
    exact (attempts_evolution (MarkFailure "j" 1 [] [] 5) retry_world "j"
                              retry_job job' eq_refl H).
Defined.

Lemma create_job_duplicate_id_witness :
  jobs retry_world !! "j" = Some retry_job /\
  create_job "echo hi" (Some "j") 0 None None None None retry_world
  = Raise ValueError retry_world.
Proof.
  split; [reflexivity|].
  exact (create_job_duplicate_id retry_world "echo hi" "j" 0 None None None
                                 None retry_job eq_refl).
Defined.

Lemma create_job_stores_pending_witness :
  jobs empty_world !! "a" = None /\
  snapshot empty_world = Ok (mkSnapshot 3 float_two 0) empty_world /\
  exists job w',
    create_job "echo hi" (Some "a") 0 None None (Some 5) None empty_world
    = Ok job w' /\
    get_job "a" w' = Ok (Some job) w' /\
    Job.state job = "pending" /\
    Job.max_retries job = 5 /\
    Job.backoff_base job = float_two.
Proof.
  split; [reflexivity|]. split; [reflexivity|].
  destruct (create_job_stores_pending empty_world "echo hi" "a" 0 None
              (Some 5) None (mkSnapshot 3 float_two 0) eq_refl eq_refl)
    as (job & w' & Hrun & _ & Hget & _ & _ & Hst & _ & Hmr & Hbb & _).
  exists job, w'. auto.
Defined.

Lemma create_job_run_at_witness :
  jobs empty_world !! "a" = None /\
  snapshot empty_world = Ok (mkSnapshot 3 float_two 0) empty_world /\
  create_job "echo hi" (Some "a") 0 (Some (RunAtStr "")) None None None
             empty_world
  = create_job "echo hi" (Some "a") 0 None None None None empty_world /\
  create_job "echo hi" (Some "a") 0 (Some (RunAtStr "tomorrow")) None None
             None empty_world
  = Raise ValueError empty_world.
Proof.
  split; [reflexivity|]. split; [reflexivity|].
  destruct (create_job_run_at empty_world "echo hi" "a" 0 None None None
              (mkSnapshot 3 float_two 0) eq_refl eq_refl)
    as (_ & Hempty & Hbad).
  split; [exact Hempty|].
  apply Hbad; [discriminate | reflexivity | reflexivity].
Defined.



Lemma retry_dlq_job_once_witness :
  retry_dlq_job "D" dead_world
  = Ok true (world_of (retry_dlq_job "D" dead_world)) /\
  retry_dlq_job "D" (world_of (retry_dlq_job "D" dead_world))
  = Ok false (world_of (retry_dlq_job "D" dead_world)).
Proof.
  split; [reflexivity|].
  exact (retry_dlq_job_once dead_world "D" _ eq_refl).
Defined.

Lemma processed_job_is_released_witness :
  wf_jobs echo_world /\
  claim_job "worker-1" echo_world
  = Ok (Some (claimed_by "worker-1" (example_clock 0) echo_job))
       echo_claimed_world /\
  _process_job (claimed_by "worker-1" (example_clock 0) echo_job)
               echo_claimed_world
  = Ok tt echo_processed_world /\
  exists row,
    jobs echo_processed_world
    !! Job.id (claimed_by "worker-1" (example_clock 0) echo_job) = Some row /\
    Job.locked_by row = None /\
    Job.locked_at row = None /\
    (Job.state row = "completed" /\
     Job.attempts row
     = Job.attempts (claimed_by "worker-1" (example_clock 0) echo_job) /\
     Job.last_exit_code row = Some 0 \/
     (Job.state row = "failed" \/ Job.state row = "dead") /\
     Job.attempts row
     = Job.attempts (claimed_by "worker-1" (example_clock 0) echo_job) + 1).
Proof.
  assert (H1 : claim_job "worker-1" echo_world
               = Ok (Some (claimed_by "worker-1" (example_clock 0) echo_job))
                    echo_claimed_world) by reflexivity.
  assert (H2 : _process_job (claimed_by "worker-1" (example_clock 0) echo_job)
                            echo_claimed_world
               = Ok tt echo_processed_world) by reflexivity.
  split; [exact wf_echo_world|]. split; [exact H1|]. split; [exact H2|].
  exact (processed_job_is_released echo_world "worker-1" _ _ _
                                   wf_echo_world H1 H2).
Defined.

Lemma subprocess_timeout_witness :
  get_int "job_timeout_s" 0 timeout_world = Ok 30 timeout_world /\
  exists passed,
    effective_timeout negative_timeout_job timeout_world
    = Ok passed timeout_world /\
    actual_timeout passed = None.
Proof.
  split; [reflexivity|].
  destruct (subprocess_timeout timeout_world negative_timeout_job 30 eq_refl)
    as (passed & Hrun & _ & _ & Hneg & _).
  exists passed. split; [exact Hrun|].
  apply (Hneg (-5)); [reflexivity | reflexivity].
Defined.


Lemma list_jobs_newest_first_witness :
  list_jobs None (Some 2) false claim_world
  = Ok (match list_jobs None (Some 2) false claim_world with
        | Ok rows _ => rows
        | Raise _ _ => []
        end) claim_world /\
  StronglySorted created_desc
    (match list_jobs None (Some 2) false claim_world with
     | Ok rows _ => rows
     | Raise _ _ => []
     end).
Proof.
  split; [reflexivity|].
  exact (proj1 (list_jobs_newest_first claim_world None (Some 2) false _ _
                                       eq_refl)).
Defined.



Lemma register_deregister_round_trip_witness :
  workers empty_world !! "worker-1" = None /\
  heartbeat "worker-1" empty_world = Ok tt empty_world /\
  deregister_worker "worker-1" empty_world = Ok tt empty_world.
Proof.
  split; [reflexivity|].
  destruct (register_deregister_round_trip empty_world "worker-1" eq_refl)
    as (Hhb & Hde & _).
  now split.
Defined.

Lemma row_ids_preserved_witness :
  wf_jobs claim_world /\
  wf_jobs (perform (ClaimJob "worker-1") claim_world).
Proof.
  split; [exact wf_claim_world|].
  exact (row_ids_preserved (ClaimJob "worker-1") claim_world wf_claim_world).
Defined.
